(** * MACI domain objects (maci/domainobjs/ts/index.ts)

    A shallow embedding of the TypeScript classes [PrivKey], [PubKey],
    [Keypair], [Message], [StateLeaf] and [Command], and the properties of
    their serialisation, equality and encryption round trips.

    The classes sit on top of the [maci-crypto] package, which the source
    imports and does not contain.  Its operations are Section variables, so
    every theorem holds for whatever they compute; where a property needs a
    law of that package (ECDH symmetry, decryption inverting encryption, key
    derivation being injective) the law is a named proposition and a premise
    of the theorem. *)

From Stdlib Require Import ZArith List String Ascii Bool Lia.
Import ListNotations.

Open Scope Z_scope.

(* ------------------------------------------------------------------------- *)
(** * The JavaScript layer *)
(* ------------------------------------------------------------------------- *)

(** Exceptions the embedded code can raise.  [assert(..)] raises
    [AssertionError]; the BigInt constructor raises [SyntaxError] on a string
    that is not a numeric literal and [TypeError] on [undefined];
    [LibraryError] stands for a failure raised inside [maci-crypto]. *)
Inductive JsError : Type :=
| AssertionError
| SyntaxError
| TypeError
| LibraryError.

(** A computation either returns or throws. *)
Inductive Result (A : Type) : Type :=
| OK (a : A)
| Throw (e : JsError).

Arguments OK {A} a.
Arguments Throw {A} e.

Definition bind {A B : Type} (m : Result A) (k : A -> Result B) : Result B :=
  match m with
  | OK a => k a
  | Throw e => Throw e
  end.

Notation "x <- m ;; k" := (bind m (fun x => k))
  (at level 61, m at next level, right associativity).

(** [assert(b)] of Node's [assert] module. *)
Definition assert (b : bool) : Result unit :=
  if b then OK tt else Throw AssertionError.

(** [try { body } catch { }] around an assignment to a variable whose value
    before the block is [dflt]: the exception is swallowed and the variable
    keeps its old value. *)
Definition try_catch {A : Type} (body : Result A) (dflt : A) : A :=
  match body with
  | OK a => a
  | Throw _ => dflt
  end.

(** The values that flow through the numeric fields of the domain objects.
    [SnarkBigInt] values are native bigints; the source also writes the
    Number literal [0] (in [new PubKey([0, 0])]), and reading a property
    that an object does not have yields [undefined].  [JNumber] carries
    integer-valued Numbers only: no other Number occurs in the source. *)
Inductive JsVal : Type :=
| JUndefined
| JNumber (n : Z)
| JBigInt (n : Z).

(** [a == b]: [undefined] is loosely equal to itself only; Numbers and
    bigints compare by mathematical value, also across the two types. *)
Definition loose_eq (a b : JsVal) : bool :=
  match a, b with
  | JUndefined, JUndefined => true
  | JNumber x, JNumber y => x =? y
  | JBigInt x, JBigInt y => x =? y
  | JNumber x, JBigInt y => x =? y
  | JBigInt x, JNumber y => x =? y
  | _, _ => false
  end.

(** [a === b]: values of different types are never strictly equal. *)
Definition strict_eq (a b : JsVal) : bool :=
  match a, b with
  | JUndefined, JUndefined => true
  | JNumber x, JNumber y => x =? y
  | JBigInt x, JBigInt y => x =? y
  | _, _ => false
  end.

(** [a < b] for a bigint [b]: [undefined] converts to NaN, for which every
    comparison is false. *)
Definition js_lt (a : JsVal) (b : Z) : bool :=
  match a with
  | JUndefined => false
  | JNumber x => x <? b
  | JBigInt x => x <? b
  end.

(** [arr[i]]: reading past the end of an array yields [undefined]. *)
Definition index (arr : list JsVal) (i : nat) : JsVal :=
  nth i arr JUndefined.

(** ** Strings *)

(** [s.slice(n)]: the string without its first [n] characters. *)
Fixpoint slice (n : nat) (s : string) : string :=
  match n, s with
  | O, _ => s
  | S _, EmptyString => EmptyString
  | S n', String _ s' => slice n' s'
  end.

(** [s.startsWith(p)]. *)
Definition startsWith (s p : string) : bool := String.prefix p s.

(** [f] holds of every character of [s]. *)
Fixpoint string_forallb (f : ascii -> bool) (s : string) : bool :=
  match s with
  | EmptyString => true
  | String c s' => f c && string_forallb f s'
  end.

(** ** Hexadecimal *)

(** The value of a hexadecimal digit, upper or lower case. *)
Definition hex_digit_value (c : ascii) : option Z :=
  let n := Z.of_N (N_of_ascii c) in
  if (48 <=? n) && (n <=? 57) then Some (n - 48)
  else if (97 <=? n) && (n <=? 102) then Some (n - 87)
  else if (65 <=? n) && (n <=? 70) then Some (n - 55)
  else None.

(** The lower-case digit of a value below 16. *)
Definition hex_digit (d : Z) : ascii :=
  ascii_of_N (Z.to_N (if d <? 10 then 48 + d else 87 + d)).

Definition is_lower_hex (c : ascii) : bool :=
  let n := Z.of_N (N_of_ascii c) in
  ((48 <=? n) && (n <=? 57)) || ((97 <=? n) && (n <=? 102)).

Fixpoint parse_hex_digits (x : string) (acc : Z) : option Z :=
  match x with
  | EmptyString => Some acc
  | String c x' =>
      match hex_digit_value c with
      | Some d => parse_hex_digits x' (16 * acc + d)
      | None => None
      end
  end.

(** A string is valid hexadecimal when it is not empty and all its
    characters are hexadecimal digits. *)
Fixpoint all_hex (x : string) : bool :=
  match x with
  | EmptyString => true
  | String c x' =>
      match hex_digit_value c with
      | Some _ => all_hex x'
      | None => false
      end
  end.

Definition is_hex_string (x : string) : bool :=
  match x with
  | EmptyString => false
  | String _ _ => all_hex x
  end.

(** Modelled from the spec: [bigInt('0x' + x)], where [bigInt] is the big
    integer constructor exported by maci-crypto, which is not in the source.
    The spec has it parse the remainder as hexadecimal and fail when the
    remainder is not valid hex; the empty remainder leaves the bare literal
    prefix [0x], which is not a number.  Valid hex is digits only: white
    space around the digits is not accepted here. *)
Definition bigInt_hex (x : string) : Result Z :=
  match x with
  | EmptyString => Throw SyntaxError
  | String _ _ =>
      match parse_hex_digits x 0 with
      | Some v => OK v
      | None => Throw SyntaxError
      end
  end.

(** Modelled from the spec: [bigInt(v)] on a value, for the same absent
    constructor: a Number or bigint converts to the bigint of the same
    value, [undefined] does not convert. *)
Definition bigInt (v : JsVal) : Result Z :=
  match v with
  | JUndefined => Throw TypeError
  | JNumber n => OK n
  | JBigInt n => OK n
  end.

(** The digits of a non-negative [n], most significant first.  The fuel
    bounds the number of digits; [toString16] supplies enough of it. *)
Fixpoint hex_of_nonneg (fuel : nat) (n : Z) : string :=
  match fuel with
  | O => String (hex_digit n) EmptyString
  | S fuel' =>
      if n <? 16 then String (hex_digit n) EmptyString
      else (hex_of_nonneg fuel' (n / 16)
              ++ String (hex_digit (n mod 16)) EmptyString)%string
  end.

(** [n.toString(16)] on a bigint: lower-case digits, no prefix, a minus sign
    in front of a negative value. *)
Definition toString16 (n : Z) : string :=
  if n <? 0
  then String "-"%char (hex_of_nonneg (Z.to_nat (Z.log2 (- n))) (- n))
  else hex_of_nonneg (Z.to_nat (Z.log2 n)) n.

(** ** Decimal *)

Definition dec_digit_value (c : ascii) : option Z :=
  let n := Z.of_N (N_of_ascii c) in
  if (48 <=? n) && (n <=? 57) then Some (n - 48) else None.

(** The digit of a value below 10. *)
Definition dec_digit (d : Z) : ascii := ascii_of_N (Z.to_N (48 + d)).

Fixpoint parse_dec_digits (x : string) (acc : Z) : option Z :=
  match x with
  | EmptyString => Some acc
  | String c x' =>
      match dec_digit_value c with
      | Some d => parse_dec_digits x' (10 * acc + d)
      | None => None
      end
  end.

(** One digit at least, digits only. *)
Definition parse_decimal (x : string) : option Z :=
  match x with
  | EmptyString => None
  | String _ _ => parse_dec_digits x 0
  end.

(** Modelled from the spec: [bigInt(s)], for the absent constructor, on a
    string in decimal notation, which is how [toString()] prints an integer:
    digits, with a sign in front or none.  The empty string converts to
    zero.  The hexadecimal notation is read by [bigInt_hex]; a string that
    is in neither notation is not a number here. *)
Definition bigInt_decimal (s : string) : Result Z :=
  match s with
  | EmptyString => OK 0
  | String c rest =>
      if Ascii.eqb c "-"
      then match parse_decimal rest with
           | Some v => OK (- v)
           | None => Throw SyntaxError
           end
      else if Ascii.eqb c "+"
      then match parse_decimal rest with
           | Some v => OK v
           | None => Throw SyntaxError
           end
      else match parse_decimal s with
           | Some v => OK v
           | None => Throw SyntaxError
           end
  end.

(** The decimal digits of a non-negative [n], most significant first, with
    fuel as in [hex_of_nonneg]. *)
Fixpoint dec_of_nonneg (fuel : nat) (n : Z) : string :=
  match fuel with
  | O => String (dec_digit n) EmptyString
  | S fuel' =>
      if n <? 10 then String (dec_digit n) EmptyString
      else (dec_of_nonneg fuel' (n / 10)
              ++ String (dec_digit (n mod 10)) EmptyString)%string
  end.

(** [n.toString()] on a bigint, and on an integer-valued Number of magnitude
    below 10^21: decimal digits, a minus sign in front of a negative
    value. *)
Definition toString10 (n : Z) : string :=
  if n <? 0
  then String "-"%char (dec_of_nonneg (Z.to_nat (Z.log2 (- n))) (- n))
  else dec_of_nonneg (Z.to_nat (Z.log2 n)) n.

(** [bigInt(v.toString())], the way every [copy] clones a numeric field.
    [undefined] has no [toString].  A Number of magnitude 10^21 or more
    prints in exponent notation, which is not an integer literal. *)
Definition bigInt_of_toString (v : JsVal) : Result Z :=
  match v with
  | JUndefined => Throw TypeError
  | JBigInt n => bigInt_decimal (toString10 n)
  | JNumber n =>
      if Z.abs n <? 10 ^ 21 then bigInt_decimal (toString10 n)
      else Throw SyntaxError
  end.

(** [arr.map(f)] for an [f] that can throw: elements are visited in order
    and the first exception ends the loop. *)
Fixpoint mapM {A B : Type} (f : A -> Result B) (l : list A)
  : Result (list B) :=
  match l with
  | [] => OK []
  | a :: l' => b <- f a ;; bs <- mapM f l' ;; OK (b :: bs)
  end.

(** A byte of a Buffer. *)
Definition is_byte (b : Z) : bool := (0 <=? b) && (b <? 256).

(** [buf.toString('hex')] on a Buffer: two lower-case digits per byte. *)
Fixpoint Buffer_toString_hex (buf : list Z) : string :=
  match buf with
  | [] => EmptyString
  | b :: buf' =>
      String (hex_digit (b / 16))
        (String (hex_digit (b mod 16)) (Buffer_toString_hex buf'))
  end.

(** [Buffer.from(s, 'hex')]: decodes pairs of digits and stops, without an
    error, at the first pair that is not hexadecimal. *)
Fixpoint Buffer_from_hex (s : string) : list Z :=
  match s with
  | String c1 (String c2 s') =>
      match hex_digit_value c1, hex_digit_value c2 with
      | Some hi, Some lo => (16 * hi + lo) :: Buffer_from_hex s'
      | _, _ => []
      end
  | _ => []
  end.

(** ** Objects *)

(** What reading a property of an object yields: a primitive value, or some
    array or function object. *)
Inductive Slot : Type :=
| SlotValue (v : JsVal)
| SlotArray (elems : list JsVal)
| SlotFunction.

(** [obj[key]]: the member of that name, [undefined] when there is none. *)
Fixpoint get_prop (obj : list (string * Slot)) (key : string) : Slot :=
  match obj with
  | [] => SlotValue JUndefined
  | (name, slot) :: obj' =>
      if String.eqb name key then slot else get_prop obj' key
  end.

(** [==] on what two property reads yielded.  Two primitives compare as
    [loose_eq] has it.  Objects compare by identity, which the embedding
    does not track: the comparison of the members of two instances is
    false. *)
Definition slot_loose_eq (a b : Slot) : bool :=
  match a, b with
  | SlotValue x, SlotValue y => loose_eq x y
  | _, _ => false
  end.

(* ------------------------------------------------------------------------- *)
(** * Data of the domain objects *)
(* ------------------------------------------------------------------------- *)

Record PrivKey : Type := mkPrivKey { rawPrivKey : Z }.

Record PubKey : Type := mkPubKey { rawPubKey : list JsVal }.

Record Keypair : Type := mkKeypair { privKey : PrivKey; pubKey : PubKey }.

Record Message : Type := mkMessage { iv : JsVal; data : list JsVal }.

Record StateLeaf : Type := mkStateLeaf {
  leaf_pubKey : PubKey;
  voteOptionTreeRoot : JsVal;
  voiceCreditBalance : JsVal;
  leaf_nonce : JsVal
}.

Record Command : Type := mkCommand {
  stateIndex : JsVal;
  newPubKey : PubKey;
  voteOptionIndex : JsVal;
  newVoteWeight : JsVal;
  nonce : JsVal;
  salt : JsVal
}.

(** Modelled from the spec: the [Signature] type of maci-crypto, "R8 (point,
    two field elements) and S (scalar)". *)
Record Signature : Type := mkSignature { R8 : list JsVal; sig_S : JsVal }.

(** Modelled from the spec: the [Ciphertext] type of maci-crypto, whose [iv]
    and [data] a [Message] is built from. *)
Record Ciphertext : Type := mkCiphertext {
  ct_iv : JsVal;
  ct_data : list JsVal
}.

Definition is_bigint (v : JsVal) : bool :=
  match v with
  | JBigInt _ => true
  | _ => false
  end.

(** A signature as the signing routine returns it: a point and a scalar,
    all bigints. *)
Definition wf_signature (s : Signature) : Prop :=
  List.length (R8 s) = 2%nat /\ forallb is_bigint (R8 s) = true
  /\ is_bigint (sig_S s) = true.

(** A toy stand-in for the maci-crypto operations, used to instantiate the
    theorems below at concrete inputs: the public key of [k] is the point
    [(k, k)], the shared key of [a] and the public key of [b] is [a * b], a
    vector is encrypted by adding the key to each element, and a signature
    of [h] under [k] is [((k, h), k + h)]. *)
Module Toy.

Definition P : Z :=
  21888242871839275222246405745257275088548364400416034343698204186575808495617.

Definition genPubKey (k : Z) : list JsVal := [JBigInt k; JBigInt k].

Definition genEcdhSharedKey (a : Z) (pub : list JsVal) : Z :=
  match pub with
  | JBigInt b :: _ => a * b
  | _ => 0
  end.

Definition shift (k : Z) (v : JsVal) : JsVal :=
  match v with
  | JBigInt x => JBigInt (x + k)
  | _ => v
  end.

Definition encrypt (pt : list JsVal) (k : Z) : Ciphertext :=
  mkCiphertext (JBigInt 0) (map (shift k) pt).

Definition decrypt (m : Message) (k : Z) : Result (list JsVal) :=
  OK (map (shift (- k)) (data m)).

Definition sign (k : Z) (h : JsVal) : Result Signature :=
  match h with
  | JBigInt x => OK (mkSignature [JBigInt k; JBigInt x] (JBigInt (k + x)))
  | _ => Throw LibraryError
  end.

Definition hash (l : list JsVal) : JsVal :=
  JBigInt (Z.of_nat (List.length l)).

Definition packPubKey (raw : list JsVal) : Result (list Z) :=
  Throw LibraryError.

Definition unpackPubKey (buf : list Z) : Result (list JsVal) :=
  Throw LibraryError.

Definition verifySignature (h : JsVal) (s : Signature) (pub : list JsVal)
  : bool :=
  match h, pub, R8 s, sig_S s with
  | JBigInt x, JBigInt k :: _, [JBigInt k'; JBigInt x'], JBigInt t =>
      (k =? k') && (x =? x') && (t =? k + x)
  | _, _, _, _ => false
  end.

(** Packing writes two coordinates that are bytes as these two bytes, and
    fails on any other point; unpacking reads two bytes back. *)
Definition pack2 (raw : list JsVal) : Result (list Z) :=
  match raw with
  | [JBigInt x; JBigInt y] =>
      if is_byte x && is_byte y then OK [x; y] else Throw LibraryError
  | _ => Throw LibraryError
  end.

Definition unpack2 (buf : list Z) : Result (list JsVal) :=
  match buf with
  | [x; y] => OK [JBigInt x; JBigInt y]
  | _ => Throw LibraryError
  end.

End Toy.

Section Domainobjs.

(** Modelled from the spec: the operations of maci-crypto that the classes
    call, none of which is in the source: the field modulus, public-key
    derivation, ECDH shared-key derivation, point packing and unpacking,
    the 5-ary and 11-ary hashes, signing, and symmetric encryption and
    decryption.  A routine that can fail returns a [Result]. *)
Variable SNARK_FIELD_SIZE : Z.
Variable EcdhSharedKey : Type.
Variable genPubKey : Z -> list JsVal.
Variable genEcdhSharedKey : Z -> list JsVal -> EcdhSharedKey.
Variable packPubKey : list JsVal -> Result (list Z).
Variable unpackPubKey : list Z -> Result (list JsVal).
Variable hash5 : list JsVal -> JsVal.
Variable hash11 : list JsVal -> JsVal.
Variable sign : Z -> JsVal -> Result Signature.
Variable verifySignature : JsVal -> Signature -> list JsVal -> bool.
Variable encrypt : list JsVal -> EcdhSharedKey -> Ciphertext.
Variable decrypt : Message -> EcdhSharedKey -> Result (list JsVal).

(* ----------------------------------------------------------------------- *)
(** ** PrivKey *)

Definition SERIALIZED_PRIV_KEY_PREFIX : string := "macisk."%string.

Definition PrivKey_serialize (this : PrivKey) : string :=
  (SERIALIZED_PRIV_KEY_PREFIX ++ toString16 (rawPrivKey this))%string.

Definition PrivKey_unserialize (s : string) : Result PrivKey :=
  let x := slice (String.length SERIALIZED_PRIV_KEY_PREFIX) s in
  v <- bigInt_hex x ;;
  OK (mkPrivKey v).

Definition PrivKey_isValidSerializedPrivKey (s : string) : Result bool :=
  let correctPrefix := startsWith s SERIALIZED_PRIV_KEY_PREFIX in
  let x := slice (String.length SERIALIZED_PRIV_KEY_PREFIX) s in
  let validValue :=
    try_catch (value <- bigInt_hex x ;; OK (value <? SNARK_FIELD_SIZE))
              false in
  OK (correctPrefix && validValue).

(* ----------------------------------------------------------------------- *)
(** ** PubKey *)

Definition SERIALIZED_PUB_KEY_PREFIX : string := "macipk."%string.

(** [new PubKey(rawPubKey)]. *)
Definition PubKey_new (rawPubKey : list JsVal) : Result PubKey :=
  _ <- assert (Nat.eqb (List.length rawPubKey) 2) ;;
  _ <- assert (js_lt (index rawPubKey 0) SNARK_FIELD_SIZE) ;;
  _ <- assert (js_lt (index rawPubKey 1) SNARK_FIELD_SIZE) ;;
  OK (mkPubKey rawPubKey).

Definition PubKey_asArray (this : PubKey) : list JsVal :=
  [index (rawPubKey this) 0; index (rawPubKey this) 1].

(** A PubKey instance as an object: the field [rawPubKey] and the arrow
    functions the class body assigns to each instance.  ([unserialize] and
    [isValidSerializedPubKey] are static and belong to the class; what the
    instance inherits from [Object.prototype] is left out, none of it being
    named by an array index.) *)
Definition PubKey_object (this : PubKey) : list (string * Slot) :=
  [ ("rawPubKey"%string, SlotArray (rawPubKey this));
    ("copy"%string, SlotFunction);
    ("asContractParam"%string, SlotFunction);
    ("asCircuitInputs"%string, SlotFunction);
    ("asArray"%string, SlotFunction);
    ("serialize"%string, SlotFunction) ].

Definition PubKey_serialize (this : PubKey) : Result string :=
  x0 <- bigInt (index (rawPubKey this) 0) ;;
  isBlank <- (if x0 =? 0
              then x1 <- bigInt (index (rawPubKey this) 1) ;; OK (x1 =? 0)
              else OK false) ;;
  if isBlank : bool
  then OK (SERIALIZED_PUB_KEY_PREFIX ++ "z")%string
  else
    packed <- packPubKey (rawPubKey this) ;;
    OK (SERIALIZED_PUB_KEY_PREFIX ++ Buffer_toString_hex packed)%string.

Definition PubKey_unserialize (s : string) : Result PubKey :=
  if String.eqb s (SERIALIZED_PUB_KEY_PREFIX ++ "z")%string
  then PubKey_new [JNumber 0; JNumber 0]
  else
    let len := String.length SERIALIZED_PUB_KEY_PREFIX in
    let packed := Buffer_from_hex (slice len s) in
    raw <- unpackPubKey packed ;;
    PubKey_new raw.

Definition PubKey_isValidSerializedPubKey (s : string) : Result bool :=
  let correctPrefix := startsWith s SERIALIZED_PUB_KEY_PREFIX in
  let validValue :=
    try_catch (_ <- PubKey_unserialize s ;; OK true) false in
  OK (correctPrefix && validValue).

(* ----------------------------------------------------------------------- *)
(** ** Keypair *)

(** [new Keypair(privKey)].  [rawKeyPair] is what [genKeypair()] returns
    on this call, a private key and a public key; it is read only when no
    private key is given. *)
Definition Keypair_new (privKey : option PrivKey)
           (rawKeyPair : Z * list JsVal) : Result Keypair :=
  match privKey with
  | Some privKey =>
      pub <- PubKey_new (genPubKey (rawPrivKey privKey)) ;;
      OK (mkKeypair privKey pub)
  | None =>
      pub <- PubKey_new (snd rawKeyPair) ;;
      OK (mkKeypair (mkPrivKey (fst rawKeyPair)) pub)
  end.

Definition Keypair_genEcdhSharedKey (privKey : PrivKey) (pubKey : PubKey)
  : EcdhSharedKey :=
  genEcdhSharedKey (rawPrivKey privKey) (rawPubKey pubKey).

(** The two comparisons [Keypair.equals] starts with. *)
Definition equalPrivKey (this keypair : Keypair) : bool :=
  rawPrivKey (privKey this) =? rawPrivKey (privKey keypair).

Definition equalPubKey (this keypair : Keypair) : bool :=
  strict_eq (index (rawPubKey (pubKey this)) 0)
            (index (rawPubKey (pubKey keypair)) 0)
  && strict_eq (index (rawPubKey (pubKey this)) 1)
               (index (rawPubKey (pubKey keypair)) 1).

Definition Keypair_equals (this keypair : Keypair) : Result bool :=
  let equalPrivKey := equalPrivKey this keypair in
  let equalPubKey := equalPubKey this keypair in
  let x := equalPrivKey && equalPubKey in
  let y := negb equalPrivKey && negb equalPubKey in
  _ <- assert ((x && negb y) || (negb x && y)) ;;
  OK equalPrivKey.

(* ----------------------------------------------------------------------- *)
(** ** Message *)

(** [new Message(iv, data)]. *)
Definition Message_new (iv : JsVal) (data : list JsVal) : Result Message :=
  _ <- assert (Nat.eqb (List.length data) 10) ;;
  OK (mkMessage iv data).

Definition Message_asArray (this : Message) : list JsVal :=
  iv this :: data this.

Definition Message_hash (this : Message) : JsVal :=
  hash11 (Message_asArray this).

(* ----------------------------------------------------------------------- *)
(** ** StateLeaf *)

Definition StateLeaf_genBlankLeaf (emptyVoteOptionTreeRoot : JsVal)
  : Result StateLeaf :=
  pk <- PubKey_new [JNumber 0; JNumber 0] ;;
  OK (mkStateLeaf pk emptyVoteOptionTreeRoot (JBigInt 0) (JBigInt 0)).

Definition StateLeaf_asArray (this : StateLeaf) : list JsVal :=
  PubKey_asArray (leaf_pubKey this)
    ++ [voteOptionTreeRoot this; voiceCreditBalance this; leaf_nonce this].

Definition StateLeaf_hash (this : StateLeaf) : JsVal :=
  hash5 (StateLeaf_asArray this).

(* ----------------------------------------------------------------------- *)
(** ** Command *)

Definition Command_asArray (this : Command) : list JsVal :=
  [stateIndex this]
    ++ PubKey_asArray (newPubKey this)
    ++ [voteOptionIndex this; newVoteWeight this; nonce this; salt this].

(** [this.newPubKey[0]] and [this.newPubKey[1]] are property reads on the
    PubKey object itself, under the keys ["0"] and ["1"]. *)
Definition Command_equals (this command : Command) : bool :=
  loose_eq (stateIndex this) (stateIndex command)
  && slot_loose_eq (get_prop (PubKey_object (newPubKey this)) "0")
                   (get_prop (PubKey_object (newPubKey command)) "0")
  && slot_loose_eq (get_prop (PubKey_object (newPubKey this)) "1")
                   (get_prop (PubKey_object (newPubKey command)) "1")
  && loose_eq (voteOptionIndex this) (voteOptionIndex command)
  && loose_eq (newVoteWeight this) (newVoteWeight command)
  && loose_eq (nonce this) (nonce command)
  && loose_eq (salt this) (salt command).

Definition Command_hash (this : Command) : JsVal :=
  hash11 (Command_asArray this).

Definition Command_sign (this : Command) (privKey : PrivKey)
  : Result Signature :=
  sign (rawPrivKey privKey) (Command_hash this).

Definition Command_verifySignature (this : Command) (signature : Signature)
           (pubKey : PubKey) : bool :=
  verifySignature (Command_hash this) signature (rawPubKey pubKey).

Definition Command_encrypt (this : Command) (signature : Signature)
           (sharedKey : EcdhSharedKey) : Result Message :=
  let plaintext :=
    Command_asArray this
      ++ [index (R8 signature) 0; index (R8 signature) 1; sig_S signature] in
  let ciphertext := encrypt plaintext sharedKey in
  Message_new (ct_iv ciphertext) (ct_data ciphertext).

Definition Command_decrypt (message : Message) (sharedKey : EcdhSharedKey)
  : Result (Command * Signature) :=
  decrypted <- decrypt message sharedKey ;;
  pk <- PubKey_new [index decrypted 1; index decrypted 2] ;;
  let command :=
    mkCommand (index decrypted 0) pk (index decrypted 3)
              (index decrypted 4) (index decrypted 5) (index decrypted 6) in
  let signature :=
    mkSignature [index decrypted 7; index decrypted 8] (index decrypted 9) in
  OK (command, signature).

(* ----------------------------------------------------------------------- *)
(** ** Copies *)

Definition PrivKey_copy (this : PrivKey) : Result PrivKey :=
  v <- bigInt_of_toString (JBigInt (rawPrivKey this)) ;;
  OK (mkPrivKey v).

Definition PubKey_copy (this : PubKey) : Result PubKey :=
  x <- bigInt_of_toString (index (rawPubKey this) 0) ;;
  y <- bigInt_of_toString (index (rawPubKey this) 1) ;;
  PubKey_new [JBigInt x; JBigInt y].

(** [new Keypair(this.privKey.copy())]: the constructor is given a private
    key, so it does not call [genKeypair()] and its second argument here is
    not read. *)
Definition Keypair_copy (this : Keypair) : Result Keypair :=
  k <- PrivKey_copy (privKey this) ;;
  Keypair_new (Some k) (0, []).

Definition Message_copy (this : Message) : Result Message :=
  iv' <- bigInt_of_toString (iv this) ;;
  data' <- mapM (fun x => v <- bigInt_of_toString x ;; OK (JBigInt v))
                (data this) ;;
  Message_new (JBigInt iv') data'.

Definition StateLeaf_copy (this : StateLeaf) : Result StateLeaf :=
  pk <- PubKey_copy (leaf_pubKey this) ;;
  root <- bigInt_of_toString (voteOptionTreeRoot this) ;;
  balance <- bigInt_of_toString (voiceCreditBalance this) ;;
  n <- bigInt_of_toString (leaf_nonce this) ;;
  OK (mkStateLeaf pk (JBigInt root) (JBigInt balance) (JBigInt n)).

Definition Command_copy (this : Command) : Result Command :=
  si <- bigInt_of_toString (stateIndex this) ;;
  pk <- PubKey_copy (newPubKey this) ;;
  vo <- bigInt_of_toString (voteOptionIndex this) ;;
  w <- bigInt_of_toString (newVoteWeight this) ;;
  n <- bigInt_of_toString (nonce this) ;;
  sa <- bigInt_of_toString (salt this) ;;
  OK (mkCommand (JBigInt si) pk (JBigInt vo) (JBigInt w) (JBigInt n)
                (JBigInt sa)).

Definition Message_asCircuitInputs (this : Message) : list JsVal :=
  Message_asArray this.

(* ----------------------------------------------------------------------- *)
(** ** What the properties below ask of maci-crypto *)

(** Modelled from the spec: public-key derivation "is a bijection in
    practice": two private keys with the same public key are the same. *)
Definition genPubKey_injective : Prop :=
  forall a b : Z, genPubKey a = genPubKey b -> a = b.

(** Modelled from the spec: the pair [genKeypair()] returns is a private
    key together with the public key derived from it. *)
Definition genKeypair_derives (rawKeyPair : Z * list JsVal) : Prop :=
  snd rawKeyPair = genPubKey (fst rawKeyPair).

(** Modelled from the spec: "by ECDH correctness,
    ecdhSharedKey(A.priv, B.pub) == ecdhSharedKey(B.priv, A.pub)". *)
Definition ecdh_symmetric : Prop :=
  forall a b : Z,
    genEcdhSharedKey a (genPubKey b) = genEcdhSharedKey b (genPubKey a).

(** Modelled from the spec: the ciphertext of a vector of field elements
    has as many elements as the vector, and the decryption routine "merely
    inverts the byte/field transform" under the same key. *)
Definition decrypt_inverts_encrypt : Prop :=
  forall (plaintext : list JsVal) (k : EcdhSharedKey),
    forallb is_bigint plaintext = true ->
    List.length (ct_data (encrypt plaintext k)) = List.length plaintext
    /\ decrypt (mkMessage (ct_iv (encrypt plaintext k))
                          (ct_data (encrypt plaintext k))) k
       = OK plaintext.

(** Modelled from the spec: the signing routine returns a point [R8] of
    two field elements and a scalar [S]. *)
Definition sign_well_formed : Prop :=
  forall (k : Z) (h : JsVal) (s : Signature),
    sign k h = OK s -> wf_signature s.

(** Modelled from the spec: a signature made with a private key verifies
    against the public key derived from it. *)
Definition sign_verifies : Prop :=
  forall (k : Z) (h : JsVal) (s : Signature),
    sign k h = OK s -> verifySignature h s (genPubKey k) = true.

(** Modelled from the spec: packing yields bytes, and unpacking them gives
    the point back. *)
Definition unpack_inverts_pack : Prop :=
  forall (raw : list JsVal) (buf : list Z),
    packPubKey raw = OK buf ->
    forallb is_byte buf = true /\ unpackPubKey buf = OK raw.

(* ----------------------------------------------------------------------- *)
(** ** Properties: strings and hexadecimal *)

Lemma prefix_app_iff (p s : string) :
  String.prefix p s = true <-> exists x, s = (p ++ x)%string.
Proof.
  revert s; induction p as [|a p IH]; intros s.
  - split; [intros _; now exists s | intros _; now destruct s].
  - destruct s as [|b s]; simpl;
      [split; [discriminate | intros [x Hx]; discriminate]|].
    destruct (ascii_dec a b) as [->|Hab].
    + rewrite IH; split; intros [x Hx]; exists x; congruence.
    + split; [discriminate | intros [x Hx]; congruence].
Qed.

Lemma slice_app (p x : string) : slice (String.length p) (p ++ x) = x.
Proof. induction p; simpl; auto. Qed.

Lemma hex_digit_cases (d : Z) :
  0 <= d < 16 ->
  In d [0; 1; 2; 3; 4; 5; 6; 7; 8; 9; 10; 11; 12; 13; 14; 15].
Proof. intros H; simpl; lia. Qed.

Lemma hex_digit_value_hex_digit (d : Z) :
  0 <= d < 16 -> hex_digit_value (hex_digit d) = Some d.
Proof.
  intros H; apply hex_digit_cases in H; simpl in H.
  repeat (destruct H as [<- | H]; [reflexivity|]); contradiction.
Qed.

Lemma is_lower_hex_hex_digit (d : Z) :
  0 <= d < 16 -> is_lower_hex (hex_digit d) = true.
Proof.
  intros H; apply hex_digit_cases in H; simpl in H.
  repeat (destruct H as [<- | H]; [reflexivity|]); contradiction.
Qed.

Lemma parse_hex_digits_app (s1 s2 : string) (acc : Z) :
  parse_hex_digits (s1 ++ s2) acc =
  match parse_hex_digits s1 acc with
  | Some v => parse_hex_digits s2 v
  | None => None
  end.
Proof.
  revert acc; induction s1 as [|c s1 IH]; intros acc; simpl; [reflexivity|].
  destruct (hex_digit_value c); auto.
Qed.

Lemma string_forallb_app (f : ascii -> bool) (s1 s2 : string) :
  string_forallb f (s1 ++ s2) = string_forallb f s1 && string_forallb f s2.
Proof.
  induction s1 as [|c s1 IH]; simpl; [reflexivity|].
  now rewrite IH, andb_assoc.
Qed.

Lemma parse_single_digit (d acc : Z) :
  0 <= d < 16 ->
  parse_hex_digits (String (hex_digit d) EmptyString) acc
  = Some (16 * acc + d).
Proof.
  intros H; cbn [parse_hex_digits].
  now rewrite (hex_digit_value_hex_digit d H).
Qed.

(** With fuel for its bit length, a non-negative number is printed as
    digits that read back as the number. *)
Lemma parse_hex_of_nonneg (fuel : nat) :
  forall n, 0 <= n < 2 ^ (Z.of_nat fuel + 1) ->
            parse_hex_digits (hex_of_nonneg fuel n) 0 = Some n.
Proof.
  induction fuel as [|fuel IH]; intros n Hn.
  - change (2 ^ (Z.of_nat 0 + 1)) with 2 in Hn.
    cbn [hex_of_nonneg]. rewrite parse_single_digit by lia. f_equal; lia.
  - cbn [hex_of_nonneg]. destruct (Z.ltb_spec n 16) as [Hlt|Hge].
    + rewrite parse_single_digit by lia. f_equal; lia.
    + rewrite parse_hex_digits_app, IH.
      * rewrite parse_single_digit by (apply Z.mod_pos_bound; lia).
        f_equal. symmetry. apply Z.div_mod; lia.
      * split; [apply Z.div_pos; lia|].
        apply Z.div_lt_upper_bound; [lia|].
        replace (Z.of_nat (S fuel) + 1) with (Z.succ (Z.of_nat fuel + 1)) in Hn
          by lia.
        rewrite Z.pow_succ_r in Hn by lia. lia.
Qed.

Lemma lower_hex_of_nonneg (fuel : nat) :
  forall n, 0 <= n < 2 ^ (Z.of_nat fuel + 1) ->
            string_forallb is_lower_hex (hex_of_nonneg fuel n) = true.
Proof.
  induction fuel as [|fuel IH]; intros n Hn.
  - change (2 ^ (Z.of_nat 0 + 1)) with 2 in Hn.
    cbn [hex_of_nonneg string_forallb].
    rewrite is_lower_hex_hex_digit by lia. reflexivity.
  - cbn [hex_of_nonneg]. destruct (Z.ltb_spec n 16) as [Hlt|Hge].
    + cbn [string_forallb]. rewrite is_lower_hex_hex_digit by lia.
      reflexivity.
    + rewrite string_forallb_app, IH.
      * cbn [string_forallb].
        rewrite is_lower_hex_hex_digit by (apply Z.mod_pos_bound; lia).
        reflexivity.
      * split; [apply Z.div_pos; lia|].
        apply Z.div_lt_upper_bound; [lia|].
        replace (Z.of_nat (S fuel) + 1) with (Z.succ (Z.of_nat fuel + 1)) in Hn
          by lia.
        rewrite Z.pow_succ_r in Hn by lia. lia.
Qed.

Lemma hex_of_nonneg_nonempty (fuel : nat) (n : Z) :
  exists c t, hex_of_nonneg fuel n = String c t.
Proof.
  destruct fuel as [|fuel]; cbn [hex_of_nonneg]; [eauto|].
  destruct (n <? 16); [eauto|].
  destruct (hex_of_nonneg fuel (n / 16)); simpl; eauto.
Qed.

(** The fuel [toString16] passes is enough. *)
Lemma log2_fuel (n : Z) :
  0 <= n -> 0 <= n < 2 ^ (Z.of_nat (Z.to_nat (Z.log2 n)) + 1).
Proof.
  intros H. rewrite Z2Nat.id by apply Z.log2_nonneg.
  split; [assumption|].
  destruct (Z.eq_dec n 0) as [->|Hnz]; [reflexivity|].
  apply Z.log2_spec; lia.
Qed.

Lemma bigInt_hex_toString16 (k : Z) :
  0 <= k -> bigInt_hex (toString16 k) = OK k.
Proof.
  intros Hk. unfold toString16.
  destruct (Z.ltb_spec k 0) as [Hneg|_]; [lia|].
  unfold bigInt_hex.
  destruct (hex_of_nonneg_nonempty (Z.to_nat (Z.log2 k)) k) as (c & t & E).
  rewrite E, <- E.
  now rewrite parse_hex_of_nonneg by (apply log2_fuel; assumption).
Qed.

Lemma parse_hex_digits_all_hex (x : string) :
  forall acc,
    if all_hex x
    then exists v, parse_hex_digits x acc = Some v
    else parse_hex_digits x acc = None.
Proof.
  induction x as [|c x IH]; intros acc; simpl; [eauto|].
  destruct (hex_digit_value c); [apply IH | reflexivity].
Qed.

Lemma bigInt_hex_valid (x : string) :
  is_hex_string x = true ->
  exists v, bigInt_hex x = OK v /\ parse_hex_digits x 0 = Some v.
Proof.
  destruct x as [|c x]; [discriminate|].
  unfold is_hex_string, bigInt_hex; intros H.
  pose proof (parse_hex_digits_all_hex (String c x) 0) as P.
  rewrite H in P. destruct P as [v ->]. eauto.
Qed.

Lemma bigInt_hex_invalid (x : string) :
  is_hex_string x = false -> bigInt_hex x = Throw SyntaxError.
Proof.
  destruct x as [|c x]; [reflexivity|].
  unfold is_hex_string, bigInt_hex; intros H.
  pose proof (parse_hex_digits_all_hex (String c x) 0) as P.
  rewrite H in P. now rewrite P.
Qed.

Lemma bigInt_hex_ok_is_hex (x : string) (v : Z) :
  bigInt_hex x = OK v -> is_hex_string x = true.
Proof.
  intros H. destruct (is_hex_string x) eqn:E; [reflexivity|].
  rewrite (bigInt_hex_invalid x E) in H. discriminate.
Qed.

(* ----------------------------------------------------------------------- *)
(** ** Properties: PrivKey *)

Lemma PrivKey_unserialize_prefixed (x : string) :
  PrivKey_unserialize (SERIALIZED_PRIV_KEY_PREFIX ++ x)
  = (v <- bigInt_hex x ;; OK (mkPrivKey v)).
Proof. unfold PrivKey_unserialize. now rewrite slice_app. Qed.

(** C3, as the code has it.  [PrivKey.unserialize] drops the first seven
    characters of its argument without looking at them and succeeds exactly
    when what is left is valid hexadecimal, the key being the number read;
    otherwise the parse fails.  In particular it succeeds on the prefix
    followed by valid hexadecimal. *)
Theorem PrivKey_unserialize_fails_iff_not_hex (s : string) :
  ((exists v, PrivKey_unserialize s = OK (mkPrivKey v)
              /\ parse_hex_digits (slice 7 s) 0 = Some v)
   <-> is_hex_string (slice 7 s) = true)
  /\ (PrivKey_unserialize s = Throw SyntaxError
      <-> is_hex_string (slice 7 s) = false)
  /\ (forall x, is_hex_string x = true ->
                exists v, PrivKey_unserialize ("macisk." ++ x)
                          = OK (mkPrivKey v)).
Proof.
  unfold PrivKey_unserialize.
  change (String.length SERIALIZED_PRIV_KEY_PREFIX) with 7%nat.
  repeat split.
  - intros (v & H & _). destruct (bigInt_hex (slice 7 s)) eqn:E;
      [eapply bigInt_hex_ok_is_hex; eassumption | discriminate].
  - intros H. destruct (bigInt_hex_valid _ H) as (v & -> & Hv).
    exists v; auto.
  - intros H. destruct (is_hex_string (slice 7 s)) eqn:E; [|reflexivity].
    destruct (bigInt_hex_valid _ E) as (v & Hv & _).
    rewrite Hv in H. discriminate.
  - intros H. now rewrite (bigInt_hex_invalid _ H).
  - intros x H. destruct (bigInt_hex_valid _ H) as (v & Hv & _).
    exists v. cbn [slice append]. now rewrite Hv.
Qed.

(** C3, as the spec words it, fails: a string that does not start with the
    prefix is parsed all the same. *)
Lemma PrivKey_unserialize_ignores_prefix :
  startsWith "abcdefg12" SERIALIZED_PRIV_KEY_PREFIX = false
  /\ PrivKey_unserialize "abcdefg12" = OK (mkPrivKey 18).
Proof. split; reflexivity. Qed.

(** C5.  [PrivKey.isValidSerializedPrivKey] returns a boolean on every
    string and never throws; the boolean is true exactly when the string is
    the prefix followed by text that decodes as hexadecimal to a value
    strictly below the field modulus. *)
Theorem PrivKey_isValidSerializedPrivKey_spec (s : string) :
  exists b,
    PrivKey_isValidSerializedPrivKey s = OK b
    /\ (b = true <->
        exists x v, s = ("macisk." ++ x)%string
                    /\ bigInt_hex x = OK v
                    /\ v < SNARK_FIELD_SIZE).
Proof.
  unfold PrivKey_isValidSerializedPrivKey. eexists; split; [reflexivity|].
  rewrite andb_true_iff. unfold startsWith. rewrite prefix_app_iff.
  split.
  - intros [[x ->] Hv]. rewrite slice_app in Hv.
    destruct (bigInt_hex x) as [v|e] eqn:E; [|discriminate].
    exists x, v. cbn in Hv. apply Z.ltb_lt in Hv. auto.
  - intros (x & v & -> & Hx & Hlt). split; [now exists x|].
    change ("macisk." ++ x)%string
      with (SERIALIZED_PRIV_KEY_PREFIX ++ x)%string.
    rewrite slice_app, Hx. cbn. now apply Z.ltb_lt.
Qed.

(** C6.  A private key with a non-negative raw value serialises to the
    prefix followed by the lower-case hexadecimal digits of the value, and
    unserialising that string gives back a key with the same raw value.
    (The bound [k < P] of the claim is not needed.) *)
Theorem PrivKey_serialize_roundtrip (k : Z) :
  0 <= k ->
  PrivKey_serialize (mkPrivKey k) = ("macisk." ++ toString16 k)%string
  /\ string_forallb is_lower_hex (toString16 k) = true
  /\ PrivKey_unserialize (PrivKey_serialize (mkPrivKey k))
     = OK (mkPrivKey k).
Proof.
  intros Hk. split; [reflexivity|]. split.
  - unfold toString16. destruct (Z.ltb_spec k 0) as [Hneg|_]; [lia|].
    apply lower_hex_of_nonneg, log2_fuel, Hk.
  - unfold PrivKey_serialize. rewrite PrivKey_unserialize_prefixed.
    cbn [rawPrivKey]. now rewrite bigInt_hex_toString16.
Qed.

(** C10.  [PrivKey.unserialize] checks no range: on the prefix followed by
    hexadecimal text for a value [v] at or above the field modulus it
    returns the key [v], while [isValidSerializedPrivKey] says false of the
    same string. *)
Theorem PrivKey_unserialize_no_range_check (x : string) (v : Z) :
  bigInt_hex x = OK v ->
  SNARK_FIELD_SIZE <= v ->
  PrivKey_unserialize ("macisk." ++ x) = OK (mkPrivKey v)
  /\ PrivKey_isValidSerializedPrivKey ("macisk." ++ x) = OK false.
Proof.
  intros Hx Hv.
  change ("macisk." ++ x)%string with (SERIALIZED_PRIV_KEY_PREFIX ++ x)%string.
  split.
  - now rewrite PrivKey_unserialize_prefixed, Hx.
  - unfold PrivKey_isValidSerializedPrivKey.
    rewrite slice_app, Hx. cbn [bind try_catch].
    destruct (Z.ltb_spec v SNARK_FIELD_SIZE) as [Hlt|_]; [lia|].
    now rewrite andb_false_r.
Qed.

(* ----------------------------------------------------------------------- *)
(** ** Properties: PubKey *)

(** What a successful construction says of its argument. *)
Lemma PubKey_new_inv (raw : list JsVal) (pk : PubKey) :
  PubKey_new raw = OK pk ->
  exists a b, raw = [a; b] /\ pk = mkPubKey [a; b]
              /\ js_lt a SNARK_FIELD_SIZE = true
              /\ js_lt b SNARK_FIELD_SIZE = true.
Proof.
  unfold PubKey_new.
  destruct raw as [|a [|b [|c raw]]]; try discriminate.
  cbn [List.length Nat.eqb assert bind index nth].
  destruct (js_lt a SNARK_FIELD_SIZE) eqn:Ha; [|discriminate].
  destruct (js_lt b SNARK_FIELD_SIZE) eqn:Hb; [|discriminate].
  cbn. intros [= <-]. exists a, b. auto.
Qed.

Lemma PubKey_new_ok (a b : JsVal) :
  js_lt a SNARK_FIELD_SIZE = true ->
  js_lt b SNARK_FIELD_SIZE = true ->
  PubKey_new [a; b] = OK (mkPubKey [a; b]).
Proof.
  intros Ha Hb. unfold PubKey_new.
  cbn [List.length Nat.eqb assert bind index nth].
  now rewrite Ha, Hb.
Qed.

(** C9.  The constructor of [PubKey] checks the length of the array and an
    upper bound on each entry, nothing else: every two-element array whose
    entries are below the field modulus is accepted, negative bigints
    included. *)
Theorem PubKey_new_upper_bound_only (a b : JsVal) :
  js_lt a SNARK_FIELD_SIZE = true ->
  js_lt b SNARK_FIELD_SIZE = true ->
  PubKey_new [a; b] = OK (mkPubKey [a; b])
  /\ (0 <= SNARK_FIELD_SIZE ->
      forall x y : Z,
        x < 0 -> y < 0 ->
        PubKey_new [JBigInt x; JBigInt y]
        = OK (mkPubKey [JBigInt x; JBigInt y])).
Proof.
  intros Ha Hb. split; [now apply PubKey_new_ok|].
  intros HP x y Hx Hy.
  apply PubKey_new_ok; cbn [js_lt]; apply Z.ltb_lt; lia.
Qed.

(** C7.  A public key whose two coordinates are zero serialises to the
    literal [macipk.z], that literal unserialises to the key [(0, 0)], and
    so the blank key survives the round trip.  The statement holds for
    every packing and unpacking routine, one that always fails included:
    neither is called. *)
Theorem PubKey_blank_roundtrip :
  0 < SNARK_FIELD_SIZE ->
  (forall a b : JsVal,
      bigInt a = OK 0 -> bigInt b = OK 0 ->
      PubKey_serialize (mkPubKey [a; b]) = OK "macipk.z"%string)
  /\ PubKey_unserialize "macipk.z" = OK (mkPubKey [JNumber 0; JNumber 0])
  /\ (s <- PubKey_serialize (mkPubKey [JNumber 0; JNumber 0]) ;;
      PubKey_unserialize s)
     = OK (mkPubKey [JNumber 0; JNumber 0]).
Proof.
  intros HP.
  assert (Hnew : PubKey_new [JNumber 0; JNumber 0]
                 = OK (mkPubKey [JNumber 0; JNumber 0])).
  { apply PubKey_new_ok; cbn [js_lt]; now apply Z.ltb_lt. }
  assert (Hun : PubKey_unserialize "macipk.z"
                = OK (mkPubKey [JNumber 0; JNumber 0])).
  { unfold PubKey_unserialize. cbn [String.eqb]. exact Hnew. }
  split; [|split].
  - intros a b Ha Hb. unfold PubKey_serialize.
    cbn [rawPubKey index nth]. rewrite Ha. cbn [bind Z.eqb].
    rewrite Hb. reflexivity.
  - exact Hun.
  - unfold PubKey_serialize. cbn [rawPubKey index nth bigInt bind Z.eqb].
    exact Hun.
Qed.

(* ----------------------------------------------------------------------- *)
(** ** Properties: StateLeaf *)

(** C8.  [StateLeaf.genBlankLeaf(r)] is the leaf with public key [(0, 0)],
    vote option tree root [r], balance 0 and nonce 0; its hash is the 5-ary
    hash of these five values in that order, so two calls on equal roots
    give leaves with equal hashes. *)
Theorem StateLeaf_genBlankLeaf_spec :
  0 < SNARK_FIELD_SIZE ->
  (forall r : JsVal,
      exists leaf,
        StateLeaf_genBlankLeaf r = OK leaf
        /\ rawPubKey (leaf_pubKey leaf) = [JNumber 0; JNumber 0]
        /\ voteOptionTreeRoot leaf = r
        /\ voiceCreditBalance leaf = JBigInt 0
        /\ leaf_nonce leaf = JBigInt 0
        /\ StateLeaf_hash leaf
           = hash5 [JNumber 0; JNumber 0; r; JBigInt 0; JBigInt 0])
  /\ (forall (r1 r2 : JsVal) (l1 l2 : StateLeaf),
         r1 = r2 ->
         StateLeaf_genBlankLeaf r1 = OK l1 ->
         StateLeaf_genBlankLeaf r2 = OK l2 ->
         StateLeaf_hash l1 = StateLeaf_hash l2).
Proof.
  intros HP.
  assert (Hnew : PubKey_new [JNumber 0; JNumber 0]
                 = OK (mkPubKey [JNumber 0; JNumber 0])).
  { apply PubKey_new_ok; cbn [js_lt]; now apply Z.ltb_lt. }
  split.
  - intros r. unfold StateLeaf_genBlankLeaf. rewrite Hnew. cbn [bind].
    eexists; split; [reflexivity|]. repeat split.
  - intros r1 r2 l1 l2 -> H1 H2. congruence.
Qed.

(* ----------------------------------------------------------------------- *)
(** ** Properties: Keypair *)

Lemma strict_eq_true_iff (a b : JsVal) : strict_eq a b = true <-> a = b.
Proof.
  destruct a, b; cbn [strict_eq]; try rewrite Z.eqb_eq;
    split; intros H; try discriminate; congruence.
Qed.

Lemma loose_eq_refl (a : JsVal) : loose_eq a a = true.
Proof. destruct a; cbn [loose_eq]; auto using Z.eqb_refl. Qed.

(** A key pair built from a private key holds that key and the public key
    derived from it, which has two coordinates. *)
Lemma Keypair_new_Some_inv (k : PrivKey) (rk : Z * list JsVal)
      (kp : Keypair) :
  Keypair_new (Some k) rk = OK kp ->
  exists a b, kp = mkKeypair k (mkPubKey [a; b])
              /\ genPubKey (rawPrivKey k) = [a; b].
Proof.
  unfold Keypair_new.
  destruct (PubKey_new (genPubKey (rawPrivKey k))) as [pub|e] eqn:E;
    [|discriminate].
  cbn [bind]. intros [= <-].
  destruct (PubKey_new_inv _ _ E) as (a & b & Hraw & -> & _).
  exists a, b. auto.
Qed.

Lemma Keypair_new_derived (o : option PrivKey) (rk : Z * list JsVal)
      (kp : Keypair) :
  genKeypair_derives rk ->
  Keypair_new o rk = OK kp ->
  rawPubKey (pubKey kp) = genPubKey (rawPrivKey (privKey kp)).
Proof.
  intros Hrk H. destruct o as [k|].
  - destruct (Keypair_new_Some_inv _ _ _ H) as (a & b & -> & Hg).
    cbn [pubKey privKey rawPubKey]. now rewrite Hg.
  - unfold Keypair_new in H.
    destruct (PubKey_new (snd rk)) as [pub|e] eqn:E; [|discriminate].
    cbn [bind] in H. injection H as <-.
    destruct (PubKey_new_inv _ _ E) as (a & b & Hraw & -> & _).
    cbn [pubKey privKey rawPubKey rawPrivKey].
    now rewrite <- Hrk, Hraw.
Qed.

Lemma Keypair_equals_agree (kp1 kp2 : Keypair) :
  equalPrivKey kp1 kp2 = equalPubKey kp1 kp2 ->
  Keypair_equals kp1 kp2 = OK (equalPrivKey kp1 kp2).
Proof.
  unfold Keypair_equals. intros <-.
  now destruct (equalPrivKey kp1 kp2).
Qed.

(** C4.  Two key pairs built from the same private key have the same public
    key and [equals] returns true.  Two key pairs built from different
    private keys have different public keys and [equals] returns false,
    given that key derivation is injective.  Whenever the comparison of the
    private keys and that of the public keys disagree, [equals] fails its
    assertion and returns nothing. *)
Theorem Keypair_equals_spec :
  (forall (k : PrivKey) (rk1 rk2 : Z * list JsVal) (kp1 kp2 : Keypair),
      Keypair_new (Some k) rk1 = OK kp1 ->
      Keypair_new (Some k) rk2 = OK kp2 ->
      pubKey kp1 = pubKey kp2 /\ Keypair_equals kp1 kp2 = OK true)
  /\ (genPubKey_injective ->
      forall (k1 k2 : PrivKey) (rk1 rk2 : Z * list JsVal)
             (kp1 kp2 : Keypair),
        k1 <> k2 ->
        Keypair_new (Some k1) rk1 = OK kp1 ->
        Keypair_new (Some k2) rk2 = OK kp2 ->
        pubKey kp1 <> pubKey kp2 /\ Keypair_equals kp1 kp2 = OK false)
  /\ (forall kp1 kp2 : Keypair,
         equalPrivKey kp1 kp2 <> equalPubKey kp1 kp2 ->
         Keypair_equals kp1 kp2 = Throw AssertionError).
Proof.
  split; [|split].
  - intros k rk1 rk2 kp1 kp2 H1 H2.
    destruct (Keypair_new_Some_inv _ _ _ H1) as (a & b & -> & Hg1).
    destruct (Keypair_new_Some_inv _ _ _ H2) as (c & d & -> & Hg2).
    rewrite Hg1 in Hg2. injection Hg2 as <- <-.
    split; [reflexivity|].
    rewrite Keypair_equals_agree; unfold equalPrivKey, equalPubKey;
      cbn [privKey pubKey rawPubKey index nth]; rewrite Z.eqb_refl.
    + reflexivity.
    + symmetry. apply andb_true_iff; split; now apply strict_eq_true_iff.
  - intros Hinj k1 k2 rk1 rk2 kp1 kp2 Hne H1 H2.
    destruct (Keypair_new_Some_inv _ _ _ H1) as (a & b & -> & Hg1).
    destruct (Keypair_new_Some_inv _ _ _ H2) as (c & d & -> & Hg2).
    assert (Hraw : rawPrivKey k1 <> rawPrivKey k2).
    { intros E. apply Hne. destruct k1, k2. cbn in E. now subst. }
    assert (Hpub : [a; b] <> [c; d]).
    { intros E. apply Hraw, Hinj. now rewrite Hg1, Hg2. }
    split.
    + cbn [pubKey]. intros [= E1 E2]. apply Hpub. now subst.
    + assert (Hpriv : equalPrivKey (mkKeypair k1 (mkPubKey [a; b]))
                                   (mkKeypair k2 (mkPubKey [c; d])) = false).
      { unfold equalPrivKey. cbn [privKey]. now apply Z.eqb_neq. }
      rewrite Keypair_equals_agree; rewrite Hpriv; [reflexivity|].
      symmetry. unfold equalPubKey. cbn [pubKey rawPubKey index nth].
      apply andb_false_iff.
      destruct (strict_eq a c) eqn:Eac; [|now left].
      destruct (strict_eq b d) eqn:Ebd; [|now right].
      apply strict_eq_true_iff in Eac, Ebd. subst. now contradiction Hpub.
  - intros kp1 kp2 Hdis. unfold Keypair_equals.
    destruct (equalPrivKey kp1 kp2), (equalPubKey kp1 kp2);
      try reflexivity; now contradiction Hdis.
Qed.

(* ----------------------------------------------------------------------- *)
(** ** Properties: Command *)

(** No member of a PubKey object is named by an array index. *)
Lemma PubKey_object_index (pk : PubKey) :
  get_prop (PubKey_object pk) "0" = SlotValue JUndefined
  /\ get_prop (PubKey_object pk) "1" = SlotValue JUndefined.
Proof. split; reflexivity. Qed.

(** What [Command.equals] compares: the five scalar fields, and not the
    public key. *)
Lemma Command_equals_unfold (c d : Command) :
  Command_equals c d
  = loose_eq (stateIndex c) (stateIndex d)
    && loose_eq (voteOptionIndex c) (voteOptionIndex d)
    && loose_eq (newVoteWeight c) (newVoteWeight d)
    && loose_eq (nonce c) (nonce d)
    && loose_eq (salt c) (salt d).
Proof.
  unfold Command_equals.
  destruct (PubKey_object_index (newPubKey c)) as [-> ->].
  destruct (PubKey_object_index (newPubKey d)) as [-> ->].
  cbn [slot_loose_eq loose_eq]. now rewrite !andb_true_r.
Qed.

Lemma Command_equals_refl (c : Command) : Command_equals c c = true.
Proof. rewrite Command_equals_unfold. now rewrite !loose_eq_refl. Qed.

(** C2, on the code.  Two commands that differ only in [newPubKey], with
    different coordinates, are equal for [Command.equals]: the coordinates
    are read off the PubKey object, where there are none, instead of off
    its [rawPubKey] array. *)
Theorem Command_equals_misses_newPubKey :
  let c1 := mkCommand (JBigInt 1) (mkPubKey [JBigInt 10; JBigInt 20])
                      (JBigInt 3) (JBigInt 9) (JBigInt 1) (JBigInt 77) in
  let c2 := mkCommand (JBigInt 1) (mkPubKey [JBigInt 11; JBigInt 21])
                      (JBigInt 3) (JBigInt 9) (JBigInt 1) (JBigInt 77) in
  index (rawPubKey (newPubKey c1)) 0 = JBigInt 10
  /\ index (rawPubKey (newPubKey c2)) 0 = JBigInt 11
  /\ index (rawPubKey (newPubKey c1)) 1 = JBigInt 20
  /\ index (rawPubKey (newPubKey c2)) 1 = JBigInt 21
  /\ Command_equals c1 c2 = true.
Proof. repeat split. Qed.

(** The plaintext of a command and a signature has the seven fields of the
    command followed by the three of the signature. *)
Lemma Command_asArray_length (c : Command) :
  List.length (Command_asArray c) = 7%nat.
Proof. reflexivity. Qed.

(** C1.  With the shared keys derived as ECDH has it, both parties hold the
    same key, and decrypting under the one what was encrypted under the
    other gives back the command and the signature: the decrypted command
    is the original one, [equals] says so, and the signature is the
    original signature, [R8] and [S].  The command carries a public key
    that passed the constructor and bigint fields; the signature is the
    one [sign] returned. *)
Theorem Command_encrypt_decrypt_roundtrip :
  ecdh_symmetric ->
  decrypt_inverts_encrypt ->
  sign_well_formed ->
  forall (c : Command) (oa ob : option PrivKey)
         (rka rkb : Z * list JsVal) (A B : Keypair) (s : Signature),
    genKeypair_derives rka ->
    genKeypair_derives rkb ->
    Keypair_new oa rka = OK A ->
    Keypair_new ob rkb = OK B ->
    PubKey_new (rawPubKey (newPubKey c)) = OK (newPubKey c) ->
    forallb is_bigint (Command_asArray c) = true ->
    Command_sign c (privKey A) = OK s ->
    let k1 := Keypair_genEcdhSharedKey (privKey A) (pubKey B) in
    let k2 := Keypair_genEcdhSharedKey (privKey B) (pubKey A) in
    k1 = k2
    /\ exists (m : Message) (c' : Command) (s' : Signature),
        Command_encrypt c s k1 = OK m
        /\ Command_decrypt m k2 = OK (c', s')
        /\ Command_equals c' c = true
        /\ c' = c
        /\ R8 s' = R8 s /\ sig_S s' = sig_S s.
Proof.
  intros Hecdh Hdec Hsign c oa ob rka rkb A B s Hrka Hrkb HA HB Hpk Hc Hs
         k1 k2.
  assert (Hk : k1 = k2).
  { subst k1 k2. unfold Keypair_genEcdhSharedKey.
    rewrite (Keypair_new_derived _ _ _ Hrka HA).
    rewrite (Keypair_new_derived _ _ _ Hrkb HB).
    apply Hecdh. }
  split; [exact Hk|]. rewrite <- Hk. clear Hk k2.
  destruct (Hsign _ _ _ Hs) as (Hlen & Hr8 & HS).
  destruct s as [r8 sS]. cbn [R8 sig_S] in *.
  destruct r8 as [|r0 [|r1 [|r2 r8]]]; try discriminate. clear Hlen.
  destruct c as [si pk vo w n sa]. cbn [newPubKey] in Hpk.
  destruct (PubKey_new_inv _ _ Hpk) as (x & y & Hraw & -> & Hx & Hy).
  set (pt := [si; x; y; vo; w; n; sa; r0; r1; sS]).
  assert (Hpt : forallb is_bigint pt = true).
  { unfold Command_asArray, PubKey_asArray in Hc.
    cbn [newPubKey rawPubKey index nth app stateIndex voteOptionIndex
         newVoteWeight nonce salt forallb] in Hc, Hr8.
    subst pt. cbn [forallb].
    repeat (apply andb_true_iff in Hc; destruct Hc as [? Hc]).
    repeat (apply andb_true_iff in Hr8; destruct Hr8 as [? Hr8]).
    repeat (apply andb_true_iff; split); auto. }
  destruct (Hdec pt k1 Hpt) as [Hlen Hinv].
  exists (mkMessage (ct_iv (encrypt pt k1)) (ct_data (encrypt pt k1))),
    (mkCommand si (mkPubKey [x; y]) vo w n sa),
    (mkSignature [r0; r1] sS).
  split; [|split].
  - unfold Command_encrypt, Message_new.
    change (Command_asArray (mkCommand si (mkPubKey [x; y]) vo w n sa)
              ++ [index (R8 (mkSignature [r0; r1] sS)) 0;
                  index (R8 (mkSignature [r0; r1] sS)) 1;
                  sig_S (mkSignature [r0; r1] sS)])
      with pt.
    rewrite Hlen. reflexivity.
  - unfold Command_decrypt. rewrite Hinv. cbn [bind].
    subst pt. cbn [index nth].
    rewrite (PubKey_new_ok x y Hx Hy). reflexivity.
  - split; [apply Command_equals_refl|]. auto.
Qed.

(* ----------------------------------------------------------------------- *)
(** ** Properties: decimal notation and copies *)

Lemma dec_digit_cases (d : Z) :
  0 <= d < 10 -> In d [0; 1; 2; 3; 4; 5; 6; 7; 8; 9].
Proof. intros H; simpl; lia. Qed.

Lemma dec_digit_value_dec_digit (d : Z) :
  0 <= d < 10 -> dec_digit_value (dec_digit d) = Some d.
Proof.
  intros H; apply dec_digit_cases in H; simpl in H.
  repeat (destruct H as [<- | H]; [reflexivity|]); contradiction.
Qed.

Lemma dec_digit_not_sign (d : Z) :
  0 <= d < 10 ->
  Ascii.eqb (dec_digit d) "-" = false /\ Ascii.eqb (dec_digit d) "+" = false.
Proof.
  intros H; apply dec_digit_cases in H; simpl in H.
  repeat (destruct H as [<- | H]; [split; reflexivity|]); contradiction.
Qed.

Lemma parse_dec_digits_app (s1 s2 : string) (acc : Z) :
  parse_dec_digits (s1 ++ s2) acc =
  match parse_dec_digits s1 acc with
  | Some v => parse_dec_digits s2 v
  | None => None
  end.
Proof.
  revert acc; induction s1 as [|c s1 IH]; intros acc; simpl; [reflexivity|].
  destruct (dec_digit_value c); auto.
Qed.

Lemma parse_single_dec_digit (d acc : Z) :
  0 <= d < 10 ->
  parse_dec_digits (String (dec_digit d) EmptyString) acc
  = Some (10 * acc + d).
Proof.
  intros H; cbn [parse_dec_digits].
  now rewrite (dec_digit_value_dec_digit d H).
Qed.

Lemma div10_fuel (fuel : nat) (n : Z) :
  10 <= n < 2 ^ (Z.of_nat (S fuel) + 1) ->
  0 <= n / 10 < 2 ^ (Z.of_nat fuel + 1).
Proof.
  intros Hn. split; [apply Z.div_pos; lia|].
  apply Z.div_lt_upper_bound; [lia|].
  replace (Z.of_nat (S fuel) + 1) with (Z.succ (Z.of_nat fuel + 1)) in Hn
    by lia.
  rewrite Z.pow_succ_r in Hn by lia. lia.
Qed.

Lemma parse_dec_of_nonneg (fuel : nat) :
  forall n, 0 <= n < 2 ^ (Z.of_nat fuel + 1) ->
            parse_dec_digits (dec_of_nonneg fuel n) 0 = Some n.
Proof.
  induction fuel as [|fuel IH]; intros n Hn.
  - change (2 ^ (Z.of_nat 0 + 1)) with 2 in Hn.
    cbn [dec_of_nonneg]. rewrite parse_single_dec_digit by lia. f_equal; lia.
  - cbn [dec_of_nonneg]. destruct (Z.ltb_spec n 10) as [Hlt|Hge].
    + rewrite parse_single_dec_digit by lia. f_equal; lia.
    + rewrite parse_dec_digits_app, IH by (apply div10_fuel; lia).
      rewrite parse_single_dec_digit by (apply Z.mod_pos_bound; lia).
      f_equal. symmetry. apply Z.div_mod; lia.
Qed.

(** The decimal notation of a non-negative number starts with a digit. *)
Lemma dec_of_nonneg_head (fuel : nat) :
  forall n, 0 <= n < 2 ^ (Z.of_nat fuel + 1) ->
            exists c t, dec_of_nonneg fuel n = String c t
                        /\ Ascii.eqb c "-" = false
                        /\ Ascii.eqb c "+" = false.
Proof.
  induction fuel as [|fuel IH]; intros n Hn.
  - change (2 ^ (Z.of_nat 0 + 1)) with 2 in Hn.
    cbn [dec_of_nonneg]. exists (dec_digit n), EmptyString.
    split; [reflexivity | apply dec_digit_not_sign; lia].
  - cbn [dec_of_nonneg]. destruct (Z.ltb_spec n 10) as [Hlt|Hge].
    + exists (dec_digit n), EmptyString.
      split; [reflexivity | apply dec_digit_not_sign; lia].
    + destruct (IH (n / 10)) as (c & t & -> & Hc);
        [apply div10_fuel; lia|].
      cbn [append]. eauto.
Qed.

Lemma bigInt_decimal_nonneg (n : Z) :
  0 <= n -> bigInt_decimal (dec_of_nonneg (Z.to_nat (Z.log2 n)) n) = OK n.
Proof.
  intros Hn. pose proof (log2_fuel n Hn) as Hf.
  destruct (dec_of_nonneg_head _ _ Hf) as (c & t & E & Hm & Hp).
  unfold bigInt_decimal. rewrite E, Hm, Hp, <- E.
  unfold parse_decimal. rewrite E, <- E.
  now rewrite parse_dec_of_nonneg.
Qed.

(** Printing an integer in decimal and reading it back gives the integer,
    negative ones too. *)
Lemma bigInt_decimal_toString10 (n : Z) :
  bigInt_decimal (toString10 n) = OK n.
Proof.
  unfold toString10. destruct (Z.ltb_spec n 0) as [Hneg|Hpos].
  - assert (Hn : 0 <= - n) by lia.
    pose proof (log2_fuel _ Hn) as Hf.
    destruct (dec_of_nonneg_head _ _ Hf) as (c & t & E & _).
    cbn [bigInt_decimal]. change (Ascii.eqb "-" "-") with true. cbn match.
    unfold parse_decimal. rewrite E, <- E.
    rewrite parse_dec_of_nonneg by assumption. f_equal; lia.
  - now apply bigInt_decimal_nonneg.
Qed.

Lemma bigInt_of_toString_bigint (n : Z) :
  bigInt_of_toString (JBigInt n) = OK n.
Proof. apply bigInt_decimal_toString10. Qed.

Lemma bigInt_of_toString_number (n : Z) :
  Z.abs n < 10 ^ 21 -> bigInt_of_toString (JNumber n) = OK n.
Proof.
  intros H. cbn [bigInt_of_toString].
  destruct (Z.ltb_spec (Z.abs n) (10 ^ 21)) as [_|Hge]; [|lia].
  apply bigInt_decimal_toString10.
Qed.

Lemma bigInt_of_toString_is_bigint (v : JsVal) :
  is_bigint v = true ->
  (x <- bigInt_of_toString v ;; OK (JBigInt x)) = OK v.
Proof.
  destruct v; try discriminate. intros _.
  now rewrite bigInt_of_toString_bigint.
Qed.

Lemma mapM_copy_bigints (l : list JsVal) :
  forallb is_bigint l = true ->
  mapM (fun x => v <- bigInt_of_toString x ;; OK (JBigInt v)) l = OK l.
Proof.
  induction l as [|a l IH]; cbn [forallb mapM]; [reflexivity|].
  intros H. apply andb_true_iff in H. destruct H as [Ha Hl].
  rewrite (bigInt_of_toString_is_bigint a Ha). cbn [bind].
  now rewrite (IH Hl).
Qed.

Lemma PrivKey_copy_id (k : PrivKey) : PrivKey_copy k = OK k.
Proof.
  destruct k as [v]. unfold PrivKey_copy. cbn [rawPrivKey].
  now rewrite bigInt_of_toString_bigint.
Qed.

(** Copying a private key gives a key with the same raw value, whatever the
    value, negative or beyond the field modulus; the copy serialises to the
    same string. *)
Theorem PrivKey_copy_same (k : PrivKey) :
  PrivKey_copy k = OK k
  /\ (k' <- PrivKey_copy k ;; OK (PrivKey_serialize k'))
     = OK (PrivKey_serialize k).
Proof. rewrite PrivKey_copy_id. split; reflexivity. Qed.

Lemma PubKey_copy_bigint (x y : Z) :
  x < SNARK_FIELD_SIZE -> y < SNARK_FIELD_SIZE ->
  PubKey_copy (mkPubKey [JBigInt x; JBigInt y])
  = OK (mkPubKey [JBigInt x; JBigInt y]).
Proof.
  intros Hx Hy. unfold PubKey_copy. cbn [rawPubKey index nth].
  rewrite !bigInt_of_toString_bigint. cbn [bind].
  apply PubKey_new_ok; cbn [js_lt]; now apply Z.ltb_lt.
Qed.

Lemma PubKey_copy_number (x y : Z) :
  Z.abs x < 10 ^ 21 -> Z.abs y < 10 ^ 21 ->
  x < SNARK_FIELD_SIZE -> y < SNARK_FIELD_SIZE ->
  PubKey_copy (mkPubKey [JNumber x; JNumber y])
  = OK (mkPubKey [JBigInt x; JBigInt y]).
Proof.
  intros Hax Hay Hx Hy. unfold PubKey_copy. cbn [rawPubKey index nth].
  rewrite !bigInt_of_toString_number by assumption. cbn [bind].
  apply PubKey_new_ok; cbn [js_lt]; now apply Z.ltb_lt.
Qed.


(** Copying a key pair copies the private key and derives the public key
    again.  The copy of a key pair built from a private key is that key
    pair, and [equals] holds between the two.  In general the copy holds the
    derived public key whatever public key the original holds; when the two
    differ in a coordinate, [equals] between original and copy fails its
    assertion. *)
Theorem Keypair_copy_spec :
  (forall (k : PrivKey) (rk : Z * list JsVal) (kp : Keypair),
      Keypair_new (Some k) rk = OK kp ->
      Keypair_copy kp = OK kp
      /\ (kp' <- Keypair_copy kp ;; Keypair_equals kp kp') = OK true)
  /\ (forall kp kp' : Keypair,
         Keypair_copy kp = OK kp' ->
         privKey kp' = privKey kp
         /\ rawPubKey (pubKey kp') = genPubKey (rawPrivKey (privKey kp))
         /\ (equalPubKey kp kp' = false ->
             Keypair_equals kp kp' = Throw AssertionError)).
Proof.
  split.
  - intros k rk kp H.
    destruct (Keypair_new_Some_inv _ _ _ H) as (a & b & -> & Hg).
    assert (Hcopy : Keypair_copy (mkKeypair k (mkPubKey [a; b]))
                    = OK (mkKeypair k (mkPubKey [a; b]))).
    { unfold Keypair_copy. rewrite PrivKey_copy_id. cbn [bind privKey].
      rewrite <- H. reflexivity. }
    split; [exact Hcopy|]. rewrite Hcopy. cbn [bind].
    + rewrite Keypair_equals_agree; unfold equalPrivKey, equalPubKey;
        cbn [privKey pubKey rawPubKey index nth]; rewrite Z.eqb_refl.
      * reflexivity.
      * symmetry. apply andb_true_iff; split; now apply strict_eq_true_iff.
  - intros kp kp' H. unfold Keypair_copy in H.
    rewrite PrivKey_copy_id in H. cbn [bind] in H.
    destruct (Keypair_new_Some_inv _ _ _ H) as (a & b & -> & Hg).
    cbn [privKey pubKey rawPubKey]. repeat split; [now rewrite Hg|].
    intros Hpub. unfold Keypair_equals. rewrite Hpub.
    unfold equalPrivKey. cbn [privKey]. now rewrite Z.eqb_refl.
Qed.

(** Copying a message built by the constructor from bigints gives the same
    message: the ten data elements are cloned in order and the length check
    passes again. *)
Theorem Message_copy_same (i : JsVal) (d : list JsVal) (m : Message) :
  Message_new i d = OK m ->
  is_bigint i = true ->
  forallb is_bigint d = true ->
  Message_copy m = OK m.
Proof.
  intros Hm Hi Hd. unfold Message_new in Hm.
  destruct (Nat.eqb (List.length d) 10) eqn:E; [|discriminate].
  cbn in Hm. injection Hm as <-.
  unfold Message_copy. cbn [iv data]. destruct i; try discriminate.
  rewrite bigInt_of_toString_bigint. cbn [bind].
  rewrite (mapM_copy_bigints d Hd). cbn [bind].
  unfold Message_new. now rewrite E.
Qed.

(** Copying a state leaf whose fields and key coordinates are bigints gives
    the same leaf.  The blank leaf is not such a leaf: its key is written
    with Numbers, and its copy is the leaf with the bigint key [(0n, 0n)]. *)
Theorem StateLeaf_copy_spec :
  (forall (x y r b n : Z),
      x < SNARK_FIELD_SIZE -> y < SNARK_FIELD_SIZE ->
      let leaf := mkStateLeaf (mkPubKey [JBigInt x; JBigInt y])
                              (JBigInt r) (JBigInt b) (JBigInt n) in
      StateLeaf_copy leaf = OK leaf)
  /\ (forall (r : Z) (leaf : StateLeaf),
         StateLeaf_genBlankLeaf (JBigInt r) = OK leaf ->
         StateLeaf_copy leaf
         = OK (mkStateLeaf (mkPubKey [JBigInt 0; JBigInt 0])
                           (JBigInt r) (JBigInt 0) (JBigInt 0))).
Proof.
  split.
  - intros x y r b n Hx Hy leaf. unfold StateLeaf_copy. subst leaf.
    cbn [leaf_pubKey voteOptionTreeRoot voiceCreditBalance leaf_nonce].
    rewrite (PubKey_copy_bigint x y Hx Hy). cbn [bind].
    now rewrite !bigInt_of_toString_bigint.
  - intros r leaf H. unfold StateLeaf_genBlankLeaf in H.
    destruct (PubKey_new [JNumber 0; JNumber 0]) as [pk|e] eqn:E;
      [|discriminate].
    cbn [bind] in H. injection H as <-.
    destruct (PubKey_new_inv _ _ E) as (a & b & [= <- <-] & -> & Ha & Hb).
    cbn [js_lt] in Ha. apply Z.ltb_lt in Ha.
    unfold StateLeaf_copy.
    cbn [leaf_pubKey voteOptionTreeRoot voiceCreditBalance leaf_nonce].
    rewrite (PubKey_copy_number 0 0) by (assumption || reflexivity).
    cbn [bind]. now rewrite !bigInt_of_toString_bigint.
Qed.

(** Copying a command whose fields are bigints and whose public key passed
    the constructor gives the same command. *)
Theorem Command_copy_same (c : Command) :
  PubKey_new (rawPubKey (newPubKey c)) = OK (newPubKey c) ->
  forallb is_bigint (Command_asArray c) = true ->
  Command_copy c = OK c.
Proof.
  intros Hpk Hc. destruct c as [si pk vo w n sa]. cbn [newPubKey] in Hpk.
  destruct (PubKey_new_inv _ _ Hpk) as (x & y & Hraw & -> & Hx & Hy).
  unfold Command_asArray, PubKey_asArray in Hc.
  cbn [newPubKey rawPubKey index nth app stateIndex voteOptionIndex
       newVoteWeight nonce salt forallb] in Hc.
  repeat (apply andb_true_iff in Hc; destruct Hc as [? Hc]).
  destruct si, x, y, vo, w, n, sa; try discriminate.
  unfold Command_copy, PubKey_copy.
  cbn [stateIndex newPubKey voteOptionIndex newVoteWeight nonce salt
       rawPubKey index nth].
  rewrite !bigInt_of_toString_bigint. cbn [bind].
  rewrite (PubKey_new_ok _ _ Hx Hy). reflexivity.
Qed.

(* ----------------------------------------------------------------------- *)
(** ** Properties: what the constructors and parsers accept *)

(** The constructor of [PubKey] accepts exactly the arrays of two entries
    that both compare below the field modulus, and keeps the array as it
    is; anything else, a third entry, a missing or [undefined] entry, an
    entry at or above the modulus, fails the assertion.  [asArray] of a
    constructed key is the array it was built from. *)
Theorem PubKey_new_spec (raw : list JsVal) :
  ((exists a b, raw = [a; b]
                /\ js_lt a SNARK_FIELD_SIZE = true
                /\ js_lt b SNARK_FIELD_SIZE = true
                /\ PubKey_new raw = OK (mkPubKey raw))
   \/ (PubKey_new raw = Throw AssertionError
       /\ (List.length raw <> 2%nat
           \/ js_lt (index raw 0) SNARK_FIELD_SIZE = false
           \/ js_lt (index raw 1) SNARK_FIELD_SIZE = false)))
  /\ (forall pk, PubKey_new raw = OK pk ->
                 rawPubKey pk = raw /\ PubKey_asArray pk = raw).
Proof.
  split.
  - destruct raw as [|a [|b [|c raw]]];
      try (right; split; [reflexivity | left; discriminate]).
    unfold PubKey_new. cbn [List.length Nat.eqb assert bind index nth].
    destruct (js_lt a SNARK_FIELD_SIZE) eqn:Ha;
      [|right; split; [reflexivity | right; left; reflexivity]].
    destruct (js_lt b SNARK_FIELD_SIZE) eqn:Hb;
      [|right; split; [reflexivity | right; right; reflexivity]].
    left. exists a, b. auto.
  - intros pk H. destruct (PubKey_new_inv _ _ H) as (a & b & -> & -> & _).
    split; reflexivity.
Qed.

Lemma slice_short (n : nat) (s : string) :
  (String.length s <= n)%nat -> slice n s = EmptyString.
Proof.
  revert s; induction n as [|n IH]; intros s H.
  - destruct s; [reflexivity | simpl in H; lia].
  - destruct s as [|c s]; [reflexivity|]. simpl in H |- *.
    apply IH. lia.
Qed.

Lemma startsWith_app (p x : string) : startsWith (p ++ x) p = true.
Proof. unfold startsWith. apply prefix_app_iff. now exists x. Qed.

(** A string of seven characters or fewer, the bare prefix included, leaves
    nothing to parse: [PrivKey.unserialize] fails on it, and the validity
    check says false. *)
Theorem PrivKey_unserialize_short (s : string) :
  (String.length s <= 7)%nat ->
  PrivKey_unserialize s = Throw SyntaxError
  /\ PrivKey_isValidSerializedPrivKey s = OK false.
Proof.
  intros H. unfold PrivKey_unserialize, PrivKey_isValidSerializedPrivKey.
  change (String.length SERIALIZED_PRIV_KEY_PREFIX) with 7%nat.
  rewrite (slice_short 7 s H). cbn [bigInt_hex bind try_catch].
  split; [reflexivity | now rewrite andb_false_r].
Qed.

(** What [serialize] writes for a key is accepted by the validity check
    exactly when the key is a field element: not negative and below the
    modulus. *)
Theorem PrivKey_serialize_valid_iff_in_field (k : Z) :
  PrivKey_isValidSerializedPrivKey (PrivKey_serialize (mkPrivKey k))
  = OK ((0 <=? k) && (k <? SNARK_FIELD_SIZE)).
Proof.
  unfold PrivKey_isValidSerializedPrivKey, PrivKey_serialize.
  cbn [rawPrivKey]. rewrite startsWith_app, slice_app. cbn [andb].
  destruct (Z.leb_spec 0 k) as [Hk|Hk].
  - now rewrite bigInt_hex_toString16.
  - unfold toString16. destruct (Z.ltb_spec k 0) as [_|Hge]; [|lia].
    reflexivity.
Qed.

Lemma hex_digit_value_range (c : ascii) (d : Z) :
  hex_digit_value c = Some d -> 0 <= d < 16.
Proof.
  unfold hex_digit_value.
  set (n := Z.of_N (N_of_ascii c)).
  destruct ((48 <=? n) && (n <=? 57)) eqn:E1;
    [intros [= <-]; apply andb_true_iff in E1; lia|].
  destruct ((97 <=? n) && (n <=? 102)) eqn:E2;
    [intros [= <-]; apply andb_true_iff in E2; lia|].
  destruct ((65 <=? n) && (n <=? 70)) eqn:E3;
    [intros [= <-]; apply andb_true_iff in E3; lia | discriminate].
Qed.

Lemma parse_hex_digits_nonneg (x : string) :
  forall acc v, 0 <= acc -> parse_hex_digits x acc = Some v -> 0 <= v.
Proof.
  induction x as [|c x IH]; intros acc v Hacc; cbn [parse_hex_digits].
  - intros [= <-]. assumption.
  - destruct (hex_digit_value c) as [d|] eqn:E; [|discriminate].
    apply hex_digit_value_range in E. apply IH. lia.
Qed.

(** Every key that [PrivKey.unserialize] returns is non-negative, and
    serialising it and unserialising again gives the same key.  The string
    itself need not come back: a zero in front of the digits does not change
    the key that is read, so different strings stand for one key. *)
Theorem PrivKey_unserialize_reserialize (s : string) (k : PrivKey) :
  PrivKey_unserialize s = OK k ->
  0 <= rawPrivKey k
  /\ PrivKey_unserialize (PrivKey_serialize k) = OK k
  /\ (forall (c : ascii) (x : string),
         PrivKey_unserialize ("macisk.0" ++ String c x)
         = PrivKey_unserialize ("macisk." ++ String c x)).
Proof.
  unfold PrivKey_unserialize at 1. intros H.
  destruct (bigInt_hex (slice (String.length SERIALIZED_PRIV_KEY_PREFIX) s))
    as [v|e] eqn:E; [|discriminate].
  cbn [bind] in H. injection H as <-. cbn [rawPrivKey].
  assert (Hv : 0 <= v).
  { unfold bigInt_hex in E.
    destruct (slice (String.length SERIALIZED_PRIV_KEY_PREFIX) s) as [|c x];
      [discriminate|].
    destruct (parse_hex_digits (String c x) 0) as [w|] eqn:P; [|discriminate].
    injection E as <-. eapply parse_hex_digits_nonneg; [|exact P]. lia. }
  split; [exact Hv|]. split; [|reflexivity].
  unfold PrivKey_serialize. rewrite PrivKey_unserialize_prefixed.
  cbn [rawPrivKey]. now rewrite bigInt_hex_toString16.
Qed.

(* ----------------------------------------------------------------------- *)
(** ** Properties: serialised public keys *)

Lemma Buffer_from_hex_app (buf : list Z) (tail : string) :
  forallb is_byte buf = true ->
  Buffer_from_hex (Buffer_toString_hex buf ++ tail)
  = buf ++ Buffer_from_hex tail.
Proof.
  induction buf as [|b buf IH]; cbn [forallb]; [reflexivity|].
  intros H. apply andb_true_iff in H. destruct H as [Hb Hbuf].
  unfold is_byte in Hb. apply andb_true_iff in Hb.
  destruct Hb as [Hlo Hhi]. apply Z.leb_le in Hlo. apply Z.ltb_lt in Hhi.
  cbn [Buffer_toString_hex append Buffer_from_hex].
  rewrite (hex_digit_value_hex_digit (b / 16))
    by (split; [apply Z.div_pos; lia | apply Z.div_lt_upper_bound; lia]).
  rewrite (hex_digit_value_hex_digit (b mod 16))
    by (apply Z.mod_pos_bound; lia).
  rewrite (IH Hbuf). cbn [app]. f_equal.
  symmetry. apply Z.div_mod; lia.
Qed.

Lemma string_app_empty_r (s : string) : (s ++ "")%string = s.
Proof. induction s as [|c s IH]; cbn [append]; [reflexivity | now rewrite IH]. Qed.

Lemma Buffer_from_hex_toString_hex (buf : list Z) :
  forallb is_byte buf = true ->
  Buffer_from_hex (Buffer_toString_hex buf) = buf.
Proof.
  intros H. rewrite <- (string_app_empty_r (Buffer_toString_hex buf)).
  rewrite (Buffer_from_hex_app buf "" H). cbn [Buffer_from_hex].
  apply app_nil_r.
Qed.

(** The hexadecimal text of a Buffer is never the letter that marks the
    blank key. *)
Lemma Buffer_toString_hex_not_z (buf : list Z) (tail : string) :
  buf <> [] ->
  String.eqb (SERIALIZED_PUB_KEY_PREFIX ++ Buffer_toString_hex buf ++ tail)
             (SERIALIZED_PUB_KEY_PREFIX ++ "z") = false.
Proof.
  destruct buf as [|b buf]; [congruence|]. intros _.
  cbn [SERIALIZED_PUB_KEY_PREFIX Buffer_toString_hex append String.eqb].
  cbn [Ascii.eqb Bool.eqb andb].
  now destruct (Ascii.eqb (hex_digit (b / 16)) "z").
Qed.

Lemma unserialize_not_blank (s : string) :
  String.eqb s (SERIALIZED_PUB_KEY_PREFIX ++ "z") = false ->
  PubKey_unserialize s
  = (raw <- unpackPubKey
              (Buffer_from_hex
                 (slice (String.length SERIALIZED_PUB_KEY_PREFIX) s)) ;;
     PubKey_new raw).
Proof. intros H. unfold PubKey_unserialize. now rewrite H. Qed.

Lemma js_lt_bigInt (a : JsVal) (b : Z) :
  js_lt a b = true -> exists v, bigInt a = OK v.
Proof. destruct a; cbn; [discriminate | eauto | eauto]. Qed.

(** Serialisation round trip for a public key other than the blank one.
    With a packing routine that returns bytes and an unpacking routine that
    inverts it, a constructed key whose coordinates are not both zero
    serialises to the prefix followed by the hexadecimal text of the packed
    bytes, and that string unserialises to the same key. *)
Theorem PubKey_serialize_roundtrip :
  unpack_inverts_pack ->
  forall (a b : JsVal) (pk : PubKey) (buf : list Z),
    PubKey_new [a; b] = OK pk ->
    bigInt a <> OK 0 \/ bigInt b <> OK 0 ->
    packPubKey [a; b] = OK buf ->
    PubKey_serialize pk = OK ("macipk." ++ Buffer_toString_hex buf)%string
    /\ PubKey_unserialize ("macipk." ++ Buffer_toString_hex buf) = OK pk.
Proof.
  intros Hlaw a b pk buf Hpk Hnz Hpack.
  destruct (Hlaw _ _ Hpack) as [Hbytes Hunpack].
  destruct (PubKey_new_inv _ _ Hpk) as (a' & b' & [= <- <-] & -> & Ha & Hb).
  split.
  - unfold PubKey_serialize. cbn [rawPubKey index nth].
    destruct (js_lt_bigInt _ _ Ha) as [va Eva].
    destruct (js_lt_bigInt _ _ Hb) as [vb Evb].
    rewrite Eva. cbn [bind].
    destruct (Z.eqb_spec va 0) as [->|Hva].
    + rewrite Evb. cbn [bind].
      destruct (Z.eqb_spec vb 0) as [->|Hvb].
      * destruct Hnz as [Hnz|Hnz]; now contradiction Hnz.
      * cbn [bind]. now rewrite Hpack.
    + cbn [bind]. now rewrite Hpack.
  - change ("macipk." ++ Buffer_toString_hex buf)%string
      with (SERIALIZED_PUB_KEY_PREFIX ++ Buffer_toString_hex buf)%string.
    rewrite unserialize_not_blank.
    + rewrite slice_app, Buffer_from_hex_toString_hex by assumption.
      rewrite Hunpack. cbn [bind]. exact Hpk.
    + destruct buf as [|b0 buf]; [reflexivity|].
      rewrite <- (string_app_empty_r (Buffer_toString_hex (b0 :: buf))).
      now apply Buffer_toString_hex_not_z.
Qed.

(** What [serialize] returns for a constructed key starts with the prefix,
    and it is the literal of the blank key exactly when both coordinates are
    zero, as Numbers or as bigints: no packed key is taken for the blank
    one. *)
Theorem PubKey_serialize_blank_iff
        (a b : JsVal) (pk : PubKey) (s : string) :
  PubKey_new [a; b] = OK pk ->
  PubKey_serialize pk = OK s ->
  startsWith s "macipk." = true
  /\ (s = "macipk.z"%string <-> bigInt a = OK 0 /\ bigInt b = OK 0).
Proof.
  intros Hpk Hs.
  destruct (PubKey_new_inv _ _ Hpk) as (a' & b' & [= <- <-] & -> & Ha & Hb).
  unfold PubKey_serialize in Hs. cbn [rawPubKey index nth] in Hs.
  destruct (js_lt_bigInt _ _ Ha) as [va Eva].
  destruct (js_lt_bigInt _ _ Hb) as [vb Evb].
  rewrite Eva in Hs |- *. rewrite Evb in Hs |- *. cbn [bind] in Hs.
  assert (Hpacked : forall buf,
             (SERIALIZED_PUB_KEY_PREFIX ++ Buffer_toString_hex buf)%string
             <> "macipk.z"%string).
  { intros buf. apply String.eqb_neq.
    destruct buf as [|b0 buf]; [reflexivity|].
    rewrite <- (string_app_empty_r (Buffer_toString_hex (b0 :: buf))).
    now apply Buffer_toString_hex_not_z. }
  revert Hs.
  destruct (Z.eqb_spec va 0) as [->|Hva]; cbn [bind].
  - destruct (Z.eqb_spec vb 0) as [->|Hvb]; cbn [bind].
    + intros [= <-]. split; [reflexivity|]. split; auto.
    + destruct (packPubKey [a; b]) as [buf|e]; [|discriminate].
      cbn [bind]. intros [= <-].
      split; [exact (startsWith_app SERIALIZED_PUB_KEY_PREFIX _)|].
      split; [intros E; exact (False_ind _ (Hpacked buf E))
             | intros [_ [= E]]; now contradiction Hvb].
  - destruct (packPubKey [a; b]) as [buf|e]; [|discriminate].
    cbn [bind]. intros [= <-].
    split; [exact (startsWith_app SERIALIZED_PUB_KEY_PREFIX _)|].
    split; [intros E; exact (False_ind _ (Hpacked buf E))
           | intros [[= E] _]; now contradiction Hva].
Qed.

(** [PubKey.unserialize] does not reject malformed hexadecimal: decoding
    stops at the first pair of characters that is not a pair of digits, and
    at a single trailing character, and the key is unpacked from the bytes
    read so far.  Text after well-formed bytes is ignored. *)
Theorem PubKey_unserialize_truncates_bad_hex
        (buf : list Z) (c1 c2 : ascii) (rest : string) :
  forallb is_byte buf = true ->
  buf <> [] ->
  hex_digit_value c1 = None \/ hex_digit_value c2 = None ->
  PubKey_unserialize
    ("macipk." ++ Buffer_toString_hex buf ++ String c1 (String c2 rest))
  = PubKey_unserialize ("macipk." ++ Buffer_toString_hex buf)
  /\ PubKey_unserialize
       ("macipk." ++ Buffer_toString_hex buf ++ String c1 "")
     = PubKey_unserialize ("macipk." ++ Buffer_toString_hex buf).
Proof.
  intros Hbytes Hbuf Hbad.
  change "macipk."%string with SERIALIZED_PUB_KEY_PREFIX.
  assert (Hplain : PubKey_unserialize
                     (SERIALIZED_PUB_KEY_PREFIX ++ Buffer_toString_hex buf)
                   = (raw <- unpackPubKey buf ;; PubKey_new raw)).
  { rewrite unserialize_not_blank.
    - now rewrite slice_app, Buffer_from_hex_toString_hex.
    - rewrite <- (string_app_empty_r (Buffer_toString_hex buf)).
      now apply Buffer_toString_hex_not_z. }
  rewrite Hplain. split.
  - rewrite unserialize_not_blank
      by now apply Buffer_toString_hex_not_z.
    rewrite slice_app, Buffer_from_hex_app by assumption.
    cbn [Buffer_from_hex].
    destruct Hbad as [-> | H2].
    + now rewrite app_nil_r.
    + rewrite H2. destruct (hex_digit_value c1); now rewrite app_nil_r.
  - rewrite unserialize_not_blank
      by now apply Buffer_toString_hex_not_z.
    rewrite slice_app, Buffer_from_hex_app by assumption.
    cbn [Buffer_from_hex]. now rewrite app_nil_r.
Qed.

Lemma slice_length_app (p x : string) (n : nat) :
  String.length p = n -> slice n (p ++ x) = x.
Proof. intros <-. apply slice_app. Qed.

(** [PubKey.unserialize] does not check the prefix either: apart from the
    literal of the blank key, which is matched as a whole, the first seven
    characters are dropped unread.  The validity check does look at them and
    says false when they are not the prefix. *)
Theorem PubKey_unserialize_ignores_prefix (p x : string) :
  String.length p = 7%nat ->
  x <> "z"%string ->
  PubKey_unserialize (p ++ x) = PubKey_unserialize ("macipk." ++ x)
  /\ (p <> "macipk."%string ->
      PubKey_isValidSerializedPubKey (p ++ x) = OK false).
Proof.
  intros Hp Hx.
  assert (Hne : forall q, String.length q = 7%nat ->
                          String.eqb (q ++ x) (SERIALIZED_PUB_KEY_PREFIX ++ "z")
                          = false).
  { intros q Hq. apply String.eqb_neq. intros E.
    apply (f_equal (slice 7)) in E.
    rewrite (slice_length_app q x 7 Hq) in E. now apply Hx. }
  split.
  - rewrite !unserialize_not_blank by (apply Hne; auto).
    change (String.length SERIALIZED_PUB_KEY_PREFIX) with 7%nat.
    rewrite (slice_length_app p x 7 Hp).
    now rewrite (slice_length_app "macipk." x 7 eq_refl).
  - intros Hpre. unfold PubKey_isValidSerializedPubKey.
    replace (startsWith (p ++ x) SERIALIZED_PUB_KEY_PREFIX) with false;
      [reflexivity|].
    symmetry. destruct (startsWith (p ++ x) SERIALIZED_PUB_KEY_PREFIX) eqn:E;
      [|reflexivity].
    exfalso. apply Hpre. unfold startsWith in E.
    apply prefix_app_iff in E. destruct E as [y Hy].
    clear - Hp Hy.
    assert (Hlen : forall (q r : string) (u v : string),
               String.length q = String.length r ->
               (q ++ u)%string = (r ++ v)%string -> q = r).
    { induction q as [|c q IH]; intros [|d r] u v Hl Hq;
        try discriminate; [reflexivity|].
      cbn [append] in Hq. injection Hq as -> Hq.
      f_equal. eapply IH; [|exact Hq]. simpl in Hl. lia. }
    eapply Hlen; [|exact Hy]. rewrite Hp. reflexivity.
Qed.

(** [PubKey.isValidSerializedPubKey] returns a boolean on every string and
    never throws: true exactly when the string starts with the prefix and
    [unserialize] returns a key.  The literal of the blank key is valid. *)
Theorem PubKey_isValidSerializedPubKey_spec (s : string) :
  (exists b,
      PubKey_isValidSerializedPubKey s = OK b
      /\ (b = true <->
          startsWith s "macipk." = true
          /\ exists pk, PubKey_unserialize s = OK pk))
  /\ (0 < SNARK_FIELD_SIZE ->
      PubKey_isValidSerializedPubKey "macipk.z" = OK true).
Proof.
  split.
  - unfold PubKey_isValidSerializedPubKey. eexists; split; [reflexivity|].
    rewrite andb_true_iff.
    change SERIALIZED_PUB_KEY_PREFIX with "macipk."%string.
    destruct (PubKey_unserialize s) as [pk|e]; cbn [bind try_catch].
    + split; [intros [H _]; split; [exact H | now exists pk]
             | intros [H _]; auto].
    + split; [intros [_ H]; discriminate
             | intros [_ [pk H]]; discriminate].
  - intros HP. unfold PubKey_isValidSerializedPubKey, PubKey_unserialize.
    cbn [String.eqb SERIALIZED_PUB_KEY_PREFIX append Ascii.eqb Bool.eqb andb].
    rewrite (PubKey_new_ok (JNumber 0) (JNumber 0))
      by (cbn [js_lt]; now apply Z.ltb_lt).
    reflexivity.
Qed.

(* ----------------------------------------------------------------------- *)
(** ** Properties: key pairs, commands and messages *)

Lemma strict_eq_sym (a b : JsVal) : strict_eq a b = strict_eq b a.
Proof. destruct a, b; cbn [strict_eq]; auto using Z.eqb_sym. Qed.

Lemma strict_eq_refl (a : JsVal) : strict_eq a a = true.
Proof. now apply strict_eq_true_iff. Qed.

(** [Keypair.equals] is symmetric, in its answer and in whether it fails
    its assertion, and a key pair equals itself, whatever it holds. *)
Theorem Keypair_equals_sym_refl (kp1 kp2 : Keypair) :
  Keypair_equals kp1 kp2 = Keypair_equals kp2 kp1
  /\ Keypair_equals kp1 kp1 = OK true.
Proof.
  split.
  - unfold Keypair_equals, equalPrivKey, equalPubKey.
    rewrite (Z.eqb_sym (rawPrivKey (privKey kp1))).
    rewrite (strict_eq_sym (index (rawPubKey (pubKey kp1)) 0)).
    rewrite (strict_eq_sym (index (rawPubKey (pubKey kp1)) 1)).
    reflexivity.
  - rewrite Keypair_equals_agree; unfold equalPrivKey, equalPubKey;
      rewrite Z.eqb_refl, ?strict_eq_refl; reflexivity.
Qed.

(** A signature made with the private key of a key pair verifies against
    the public key of that pair, for a key pair built by the constructor
    from a private key or from a generated pair, given that the library's
    signatures verify against the derived public key. *)
Theorem Command_sign_then_verify :
  sign_verifies ->
  forall (c : Command) (o : option PrivKey) (rk : Z * list JsVal)
         (A : Keypair) (s : Signature),
    genKeypair_derives rk ->
    Keypair_new o rk = OK A ->
    Command_sign c (privKey A) = OK s ->
    Command_verifySignature c s (pubKey A) = true.
Proof.
  intros Hlaw c o rk A s Hrk HA Hs.
  unfold Command_verifySignature.
  rewrite (Keypair_new_derived _ _ _ Hrk HA).
  apply Hlaw. exact Hs.
Qed.

Lemma loose_eq_sym (a b : JsVal) : loose_eq a b = loose_eq b a.
Proof. destruct a, b; cbn [loose_eq]; auto using Z.eqb_sym. Qed.

(** [Command.equals] holds only between commands whose scalar fields,
    [stateIndex], [voteOptionIndex], [newVoteWeight], [nonce] and [salt],
    are pairwise loosely equal: two commands that differ in the value of one
    of them are never equal.  A command equals itself, and the comparison is
    symmetric. *)
Theorem Command_equals_scalar_fields (c d : Command) :
  (Command_equals c d = true ->
   loose_eq (stateIndex c) (stateIndex d) = true
   /\ loose_eq (voteOptionIndex c) (voteOptionIndex d) = true
   /\ loose_eq (newVoteWeight c) (newVoteWeight d) = true
   /\ loose_eq (nonce c) (nonce d) = true
   /\ loose_eq (salt c) (salt d) = true)
  /\ Command_equals c c = true
  /\ Command_equals c d = Command_equals d c.
Proof.
  split; [|split].
  - rewrite Command_equals_unfold, !andb_true_iff.
    intros [[[[H1 H2] H3] H4] H5]. repeat split; assumption.
  - apply Command_equals_refl.
  - rewrite !Command_equals_unfold.
    rewrite (loose_eq_sym (stateIndex c)), (loose_eq_sym (voteOptionIndex c)),
      (loose_eq_sym (newVoteWeight c)), (loose_eq_sym (nonce c)),
      (loose_eq_sym (salt c)).
    reflexivity.
Qed.

(** What [Command.encrypt] hands to the library is a vector of ten
    elements that starts with the seven of the command.  The method returns
    exactly when the ciphertext has ten data elements, with the message made
    of the ciphertext's [iv] and [data], unchanged, which has eleven circuit
    inputs; with any other number of data elements it fails the assertion of
    the Message constructor. *)
Theorem Command_encrypt_spec
        (c : Command) (s : Signature) (k : EcdhSharedKey) :
  exists plaintext : list JsVal,
    List.length plaintext = 10%nat
    /\ firstn 7 plaintext = Command_asArray c
    /\ skipn 7 plaintext = [index (R8 s) 0; index (R8 s) 1; sig_S s]
    /\ (List.length (ct_data (encrypt plaintext k)) = 10%nat ->
        Command_encrypt c s k
        = OK (mkMessage (ct_iv (encrypt plaintext k))
                        (ct_data (encrypt plaintext k)))
        /\ List.length
             (Message_asCircuitInputs
                (mkMessage (ct_iv (encrypt plaintext k))
                           (ct_data (encrypt plaintext k)))) = 11%nat)
    /\ (List.length (ct_data (encrypt plaintext k)) <> 10%nat ->
        Command_encrypt c s k = Throw AssertionError).
Proof.
  exists (Command_asArray c ++ [index (R8 s) 0; index (R8 s) 1; sig_S s]).
  split; [reflexivity|]. split; [reflexivity|]. split; [reflexivity|].
  unfold Command_encrypt, Message_new, Message_asCircuitInputs,
    Message_asArray.
  split.
  - intros H. rewrite H. cbn [Nat.eqb assert bind iv data List.length].
    split; [reflexivity | now rewrite H].
  - intros H. apply Nat.eqb_neq in H. now rewrite H.
Qed.

(** [Command.decrypt] passes a failure of the library's decryption on
    unchanged and fails the assertion of the PubKey constructor when the
    second or third decrypted element does not compare below the field
    modulus, as under a wrong key, or is missing.  Whenever it returns, the
    public key of the command passes the constructor, the signature has a
    two-element [R8], and the command and signature, laid out as the
    plaintext of [encrypt], are the first ten decrypted elements. *)
Theorem Command_decrypt_spec (m : Message) (k : EcdhSharedKey) :
  (forall e, decrypt m k = Throw e -> Command_decrypt m k = Throw e)
  /\ (forall d,
         decrypt m k = OK d ->
         js_lt (index d 1) SNARK_FIELD_SIZE = false
         \/ js_lt (index d 2) SNARK_FIELD_SIZE = false ->
         Command_decrypt m k = Throw AssertionError)
  /\ (forall (c : Command) (s : Signature),
         Command_decrypt m k = OK (c, s) ->
         exists d,
           decrypt m k = OK d
           /\ PubKey_new (rawPubKey (newPubKey c)) = OK (newPubKey c)
           /\ List.length (R8 s) = 2%nat
           /\ Command_asArray c ++ [index (R8 s) 0; index (R8 s) 1; sig_S s]
              = map (index d) (seq 0 10)).
Proof.
  unfold Command_decrypt. split; [|split].
  - intros e ->. reflexivity.
  - intros d -> H. cbn [bind]. unfold PubKey_new.
    cbn [List.length Nat.eqb assert bind index nth].
    change (nth 1 d JUndefined) with (index d 1).
    change (nth 2 d JUndefined) with (index d 2).
    destruct H as [-> | H]; [reflexivity|].
    rewrite H. now destruct (js_lt (index d 1) SNARK_FIELD_SIZE).
  - intros c s H. destruct (decrypt m k) as [d|e]; [|discriminate].
    cbn [bind] in H. exists d. split; [reflexivity|].
    destruct (PubKey_new [index d 1; index d 2]) as [pk|e] eqn:E;
      [|discriminate].
    cbn [bind] in H. injection H as <- <-.
    destruct (PubKey_new_inv _ _ E) as (a & b & [= <- <-] & -> & Ha & Hb).
    cbn [newPubKey rawPubKey R8 sig_S]. split; [exact E|].
    split; reflexivity.
Qed.

End Domainobjs.

(* ------------------------------------------------------------------------- *)
(** * The theorems at concrete inputs *)
(* ------------------------------------------------------------------------- *)

(** The toy operations satisfy what is asked of maci-crypto. *)

Lemma Toy_genPubKey_injective : genPubKey_injective Toy.genPubKey.
Proof. intros a b [= ->]. reflexivity. Qed.

Lemma Toy_ecdh_symmetric :
  ecdh_symmetric Z Toy.genPubKey Toy.genEcdhSharedKey.
Proof. intros a b. apply Z.mul_comm. Qed.

Lemma Toy_shift_back (k : Z) (pt : list JsVal) :
  forallb is_bigint pt = true ->
  map (Toy.shift (- k)) (map (Toy.shift k) pt) = pt.
Proof.
  induction pt as [|v pt IH]; cbn [map forallb]; [reflexivity|].
  intros H. apply andb_true_iff in H. destruct H as [Hv Hpt].
  rewrite (IH Hpt). destruct v; try discriminate.
  cbn [Toy.shift]. do 2 f_equal. lia.
Qed.

Lemma Toy_decrypt_inverts_encrypt :
  decrypt_inverts_encrypt Z Toy.encrypt Toy.decrypt.
Proof.
  intros pt k Hpt. unfold Toy.encrypt, Toy.decrypt. cbn [ct_data ct_iv data].
  split; [apply length_map|].
  now rewrite Toy_shift_back.
Qed.

Lemma Toy_sign_well_formed : sign_well_formed Toy.sign.
Proof.
  intros k h s. destruct h; cbn [Toy.sign]; try discriminate.
  intros [= <-]. repeat split.
Qed.

Lemma PrivKey_serialize_roundtrip_witness :
  0 <= 255
  /\ PrivKey_serialize (mkPrivKey 255) = "macisk.ff"%string
  /\ PrivKey_unserialize (PrivKey_serialize (mkPrivKey 255))
     = OK (mkPrivKey 255).
Proof.
  assert (H : 0 <= 255) by lia.
  split; [exact H|].
  destruct (PrivKey_serialize_roundtrip 255 H) as (Hs & _ & Hu).
  split; [exact Hs | exact Hu].
Defined.

Lemma PrivKey_unserialize_no_range_check_witness :
  PrivKey_unserialize
    "macisk.30644e72e131a029b85045b68181585d2833e84879b9709143e1f593f0000001"
  = OK (mkPrivKey Toy.P)
  /\ PrivKey_isValidSerializedPrivKey Toy.P
       "macisk.30644e72e131a029b85045b68181585d2833e84879b9709143e1f593f0000001"
     = OK false.
Proof.
  apply (PrivKey_unserialize_no_range_check Toy.P
           "30644e72e131a029b85045b68181585d2833e84879b9709143e1f593f0000001"
           Toy.P).
  - reflexivity.
  - apply Z.le_refl.
Defined.

Lemma PubKey_new_upper_bound_only_witness :
  PubKey_new Toy.P [JBigInt (-1); JBigInt (-7)]
  = OK (mkPubKey [JBigInt (-1); JBigInt (-7)]).
Proof.
  exact (proj1 (PubKey_new_upper_bound_only Toy.P (JBigInt (-1)) (JBigInt (-7))
                  eq_refl eq_refl)).
Defined.

Lemma PubKey_blank_roundtrip_witness :
  PubKey_serialize Toy.packPubKey (mkPubKey [JBigInt 0; JNumber 0])
  = OK "macipk.z"%string
  /\ PubKey_unserialize Toy.P Toy.unpackPubKey "macipk.z"
     = OK (mkPubKey [JNumber 0; JNumber 0]).
Proof.
  assert (HP : 0 < Toy.P) by reflexivity.
  destruct (PubKey_blank_roundtrip Toy.P Toy.packPubKey Toy.unpackPubKey HP)
    as (Hs & Hu & _).
  split; [apply Hs; reflexivity | exact Hu].
Defined.

Lemma StateLeaf_genBlankLeaf_spec_witness :
  exists leaf,
    StateLeaf_genBlankLeaf Toy.P (JBigInt 42) = OK leaf
    /\ StateLeaf_hash Toy.hash leaf
       = Toy.hash [JNumber 0; JNumber 0; JBigInt 42; JBigInt 0; JBigInt 0].
Proof.
  assert (HP : 0 < Toy.P) by reflexivity.
  destruct (StateLeaf_genBlankLeaf_spec Toy.P Toy.hash HP) as (Hleaf & _).
  destruct (Hleaf (JBigInt 42)) as (leaf & H1 & _ & _ & _ & _ & H2).
  exists leaf. split; [exact H1 | exact H2].
Defined.

Lemma Keypair_equals_spec_witness :
  let pub1 := mkPubKey [JBigInt 1; JBigInt 1] in
  let pub2 := mkPubKey [JBigInt 2; JBigInt 2] in
  let kp1 := mkKeypair (mkPrivKey 1) pub1 in
  let kp2 := mkKeypair (mkPrivKey 2) pub2 in
  Keypair_new Toy.P Toy.genPubKey (Some (mkPrivKey 1)) (0, []) = OK kp1
  /\ Keypair_new Toy.P Toy.genPubKey (Some (mkPrivKey 2)) (0, []) = OK kp2
  /\ Keypair_equals kp1 kp1 = OK true
  /\ Keypair_equals kp1 kp2 = OK false
  /\ Keypair_equals kp1 (mkKeypair (mkPrivKey 2) pub1) = Throw AssertionError.
Proof.
  intros pub1 pub2 kp1 kp2.
  destruct (Keypair_equals_spec Toy.P Toy.genPubKey) as (Hsame & Hdiff & Hthrow).
  split; [reflexivity|]. split; [reflexivity|]. split; [|split].
  - exact (proj2 (Hsame (mkPrivKey 1) (0, []) (0, []) kp1 kp1
                        eq_refl eq_refl)).
  - refine (proj2 (Hdiff Toy_genPubKey_injective (mkPrivKey 1) (mkPrivKey 2)
                         (0, []) (0, []) kp1 kp2 _ eq_refl eq_refl)).
    discriminate.
  - apply Hthrow. discriminate.
Defined.

Lemma Command_encrypt_decrypt_roundtrip_witness :
  let c := mkCommand (JBigInt 1) (mkPubKey [JBigInt 10; JBigInt 20])
                     (JBigInt 3) (JBigInt 9) (JBigInt 1) (JBigInt 77) in
  let A := mkKeypair (mkPrivKey 5) (mkPubKey [JBigInt 5; JBigInt 5]) in
  let B := mkKeypair (mkPrivKey 7) (mkPubKey [JBigInt 7; JBigInt 7]) in
  let s := mkSignature [JBigInt 5; JBigInt 7] (JBigInt 12) in
  Keypair_new Toy.P Toy.genPubKey (Some (mkPrivKey 5)) (0, Toy.genPubKey 0)
  = OK A
  /\ Keypair_new Toy.P Toy.genPubKey None (7, Toy.genPubKey 7) = OK B
  /\ Command_sign Toy.hash Toy.sign c (privKey A) = OK s
  /\ Keypair_genEcdhSharedKey Z Toy.genEcdhSharedKey (privKey A) (pubKey B)
     = Keypair_genEcdhSharedKey Z Toy.genEcdhSharedKey (privKey B) (pubKey A)
  /\ exists (m : Message) (c' : Command) (s' : Signature),
      Command_encrypt Z Toy.encrypt c s 35 = OK m
      /\ Command_decrypt Toy.P Z Toy.decrypt m 35 = OK (c', s')
      /\ Command_equals c' c = true
      /\ c' = c
      /\ R8 s' = R8 s /\ sig_S s' = sig_S s.
Proof.
  intros c A B s.
  split; [reflexivity|]. split; [reflexivity|]. split; [reflexivity|].
  exact (Command_encrypt_decrypt_roundtrip
           Toy.P Z Toy.genPubKey Toy.genEcdhSharedKey Toy.hash Toy.sign
           Toy.encrypt Toy.decrypt
           Toy_ecdh_symmetric Toy_decrypt_inverts_encrypt Toy_sign_well_formed
           c (Some (mkPrivKey 5)) None (0, Toy.genPubKey 0)
           (7, Toy.genPubKey 7) A B s
           eq_refl eq_refl eq_refl eq_refl eq_refl eq_refl eq_refl).
Defined.

(** The toy packing and signing satisfy what is asked of maci-crypto. *)

Lemma Toy_unpack_inverts_pack : unpack_inverts_pack Toy.pack2 Toy.unpack2.
Proof.
  intros raw buf. unfold Toy.pack2.
  destruct raw as [|[| |x] [|[| |y] [|c raw]]]; try discriminate.
  destruct (is_byte x) eqn:Ex; [|discriminate].
  destruct (is_byte y) eqn:Ey; [|discriminate].
  cbn [andb]. intros [= <-]. cbn [forallb Toy.unpack2].
  now rewrite Ex, Ey.
Qed.

Lemma Toy_sign_verifies :
  sign_verifies Toy.genPubKey Toy.sign Toy.verifySignature.
Proof.
  intros k h s. destruct h; cbn [Toy.sign]; try discriminate.
  intros [= <-]. cbn. now rewrite !Z.eqb_refl.
Qed.

Lemma Message_copy_same_witness :
  let d := map JBigInt [1; 2; 3; 4; 5; 6; 7; 8; 9; -10] in
  Message_new (JBigInt 3) d = OK (mkMessage (JBigInt 3) d)
  /\ Message_copy (mkMessage (JBigInt 3) d) = OK (mkMessage (JBigInt 3) d).
Proof.
  intros d. split; [reflexivity|].
  exact (Message_copy_same (JBigInt 3) d (mkMessage (JBigInt 3) d)
                           eq_refl eq_refl eq_refl).
Defined.

Lemma Command_copy_same_witness :
  let c := mkCommand (JBigInt 1) (mkPubKey [JBigInt 10; JBigInt 20])
                     (JBigInt 3) (JBigInt 9) (JBigInt 1) (JBigInt 77) in
  Command_copy Toy.P c = OK c.
Proof.
  intros c. exact (Command_copy_same Toy.P c eq_refl eq_refl).
Defined.

Lemma PrivKey_unserialize_short_witness :
  PrivKey_unserialize "macisk." = Throw SyntaxError
  /\ PrivKey_isValidSerializedPrivKey Toy.P "macisk." = OK false.
Proof.
  exact (PrivKey_unserialize_short Toy.P "macisk." (le_n 7)).
Defined.

Lemma PrivKey_unserialize_reserialize_witness :
  PrivKey_unserialize "macisk.00FF" = OK (mkPrivKey 255)
  /\ PrivKey_serialize (mkPrivKey 255) = "macisk.ff"%string
  /\ PrivKey_unserialize "macisk.ff" = OK (mkPrivKey 255).
Proof.
  split; [reflexivity|]. split; [reflexivity|].
  exact (proj1 (proj2 (PrivKey_unserialize_reserialize
                         "macisk.00FF" (mkPrivKey 255) eq_refl))).
Defined.

Lemma PubKey_serialize_roundtrip_witness :
  let pk := mkPubKey [JBigInt 10; JBigInt 255] in
  PubKey_serialize Toy.pack2 pk = OK "macipk.0aff"%string
  /\ PubKey_unserialize Toy.P Toy.unpack2 "macipk.0aff" = OK pk.
Proof.
  intros pk.
  refine (PubKey_serialize_roundtrip
            Toy.P Toy.pack2 Toy.unpack2 Toy_unpack_inverts_pack
            (JBigInt 10) (JBigInt 255) pk [10; 255] eq_refl _ eq_refl).
  left. discriminate.
Defined.

Lemma PubKey_serialize_blank_iff_witness :
  startsWith "macipk.z" "macipk." = true
  /\ ("macipk.z"%string = "macipk.z"%string
      <-> bigInt (JBigInt 0) = OK 0 /\ bigInt (JBigInt 0) = OK 0).
Proof.
  exact (PubKey_serialize_blank_iff
           Toy.P Toy.pack2 (JBigInt 0) (JBigInt 0)
           (mkPubKey [JBigInt 0; JBigInt 0]) "macipk.z" eq_refl eq_refl).
Defined.

Lemma PubKey_unserialize_truncates_bad_hex_witness :
  PubKey_unserialize Toy.P Toy.unpack2 "macipk.0affzz"
  = PubKey_unserialize Toy.P Toy.unpack2 "macipk.0aff"
  /\ PubKey_unserialize Toy.P Toy.unpack2 "macipk.0affz"
     = PubKey_unserialize Toy.P Toy.unpack2 "macipk.0aff".
Proof.
  refine (PubKey_unserialize_truncates_bad_hex
            Toy.P Toy.unpack2 [10; 255] "z"%char "z"%char "" eq_refl _
            (or_introl eq_refl)).
  discriminate.
Defined.

Lemma PubKey_unserialize_ignores_prefix_witness :
  PubKey_unserialize Toy.P Toy.unpack2 "abcdefg0aff"
  = PubKey_unserialize Toy.P Toy.unpack2 "macipk.0aff"
  /\ PubKey_isValidSerializedPubKey Toy.P Toy.unpack2 "abcdefg0aff"
     = OK false.
Proof.
  assert (Hx : "0aff"%string <> "z"%string) by discriminate.
  destruct (PubKey_unserialize_ignores_prefix
              Toy.P Toy.unpack2 "abcdefg" "0aff" eq_refl Hx) as [H1 H2].
  split; [exact H1|]. apply H2. discriminate.
Defined.

Lemma Command_sign_then_verify_witness :
  let c := mkCommand (JBigInt 1) (mkPubKey [JBigInt 10; JBigInt 20])
                     (JBigInt 3) (JBigInt 9) (JBigInt 1) (JBigInt 77) in
  let A := mkKeypair (mkPrivKey 5) (mkPubKey [JBigInt 5; JBigInt 5]) in
  let s := mkSignature [JBigInt 5; JBigInt 7] (JBigInt 12) in
  Command_sign Toy.hash Toy.sign c (privKey A) = OK s
  /\ Command_verifySignature Toy.hash Toy.verifySignature c s (pubKey A)
     = true.
Proof.
  intros c A s. split; [reflexivity|].
  exact (Command_sign_then_verify
           Toy.P Toy.genPubKey Toy.hash Toy.sign Toy.verifySignature
           Toy_sign_verifies c None (5, Toy.genPubKey 5) A s
           eq_refl eq_refl eq_refl).
Defined.

Lemma Keypair_copy_spec_witness :
  let kp := mkKeypair (mkPrivKey 5) (mkPubKey [JBigInt 5; JBigInt 5]) in
  let odd := mkKeypair (mkPrivKey 5) (mkPubKey [JBigInt 9; JBigInt 9]) in
  Keypair_copy Toy.P Toy.genPubKey kp = OK kp
  /\ Keypair_copy Toy.P Toy.genPubKey odd = OK kp
  /\ Keypair_equals odd kp = Throw AssertionError.
Proof.
  intros kp odd.
  destruct (Keypair_copy_spec Toy.P Toy.genPubKey) as [Hsame Hany].
  split; [|split].
  - exact (proj1 (Hsame (mkPrivKey 5) (0, []) kp eq_refl)).
  - reflexivity.
  - exact (proj2 (proj2 (Hany odd kp eq_refl)) eq_refl).
Defined.

Lemma StateLeaf_copy_spec_witness :
  StateLeaf_genBlankLeaf Toy.P (JBigInt 42)
  = OK (mkStateLeaf (mkPubKey [JNumber 0; JNumber 0])
                    (JBigInt 42) (JBigInt 0) (JBigInt 0))
  /\ StateLeaf_copy Toy.P
       (mkStateLeaf (mkPubKey [JNumber 0; JNumber 0])
                    (JBigInt 42) (JBigInt 0) (JBigInt 0))
     = OK (mkStateLeaf (mkPubKey [JBigInt 0; JBigInt 0])
                       (JBigInt 42) (JBigInt 0) (JBigInt 0)).
Proof.
  split; [reflexivity|].
  exact (proj2 (StateLeaf_copy_spec Toy.P) 42 _ eq_refl).
Defined.
